(** * image-to-ascii: the tiling and matching engine of [src/main.py]

    A shallow embedding of [main.py] (geometry resolution, edge padding,
    tiling, glyph matching and printing) together with the properties its
    specification states about it.

    Python integers are [Z]; Python floats are IEEE binary64, modelled by
    the kernel's primitive floats; numpy arrays are strided views over a
    flat buffer; exceptions are identified by their class name. *)

From Stdlib Require Import String Ascii ZArith List Bool Lia Floats.
From Stdlib.Strings Require Import Byte.
Import ListNotations.
Open Scope Z_scope.

(** ** Python: exceptions, integers and floats *)

Module Py.

(** An exception, identified by the name of its class. *)
Inductive exn : Type := Exception (cls : string).

Definition ZeroDivisionError : exn := Exception "ZeroDivisionError".
Definition AttributeError : exn := Exception "AttributeError".
Definition ValueError : exn := Exception "ValueError".
Definition OverflowError : exn := Exception "OverflowError".
Definition IndexError : exn := Exception "IndexError".
(** [numpy.exceptions.AxisError], a subclass of ValueError and IndexError. *)
Definition AxisError : exn := Exception "AxisError".

(** The two error classes the specification names; [main.py] defines and
    raises neither. *)
Definition InvalidGeometry : exn := Exception "InvalidGeometry".
Definition EmptyCharacterSet : exn := Exception "EmptyCharacterSet".

Definition exn_eqb (a b : exn) : bool :=
  match a, b with Exception x, Exception y => String.eqb x y end.

(** A computation that returns a value or raises. *)
Inductive result (A : Type) : Type :=
| Ok (a : A)
| Raise (e : exn).
Arguments Ok {A} a.
Arguments Raise {A} e.

Definition bind {A B : Type} (m : result A) (k : A -> result B) : result B :=
  match m with
  | Ok a => k a
  | Raise e => Raise e
  end.

Definition fmap {A B : Type} (f : A -> B) (m : result A) : result B :=
  bind m (fun a => Ok (f a)).

(** [divmod(a, b)] on ints: floor division, remainder with the sign of [b]. *)
Definition divmod (a b : Z) : result (Z * Z) :=
  if b =? 0 then Raise ZeroDivisionError else Ok (a / b, a mod b).

(** [a // b] and [a % b] on ints. *)
Definition floordiv (a b : Z) : result Z :=
  if b =? 0 then Raise ZeroDivisionError else Ok (a / b).

Definition mod_ (a b : Z) : result Z :=
  if b =? 0 then Raise ZeroDivisionError else Ok (a mod b).

(** *** Floats *)

Definition signed (s : bool) (m : Z) : Z := if s then - m else m.

(** Nearest integer to [m * 2^e] ([m >= 0]), ties to even. *)
Definition round_half_even (m e : Z) : Z :=
  if 0 <=? e then m * 2 ^ e
  else
    let d := 2 ^ (- e) in
    let q := m / d in
    let r := m mod d in
    match 2 * r ?= d with
    | Lt => q
    | Gt => q + 1
    | Eq => if Z.even q then q else q + 1
    end.

(** [round(x)] with one argument: an int, ties to even. *)
Definition round (x : float) : result Z :=
  match Prim2SF x with
  | S754_zero _ => Ok 0
  | S754_infinity _ => Raise OverflowError
  | S754_nan => Raise ValueError
  | S754_finite s m e => Ok (signed s (round_half_even (Z.pos m) e))
  end.

(** [math.floor(x)]. *)
Definition floor (x : float) : result Z :=
  match Prim2SF x with
  | S754_zero _ => Ok 0
  | S754_infinity _ => Raise OverflowError
  | S754_nan => Raise ValueError
  | S754_finite s m e => Ok (Z.shiftl (signed s (Z.pos m)) e)
  end.

(** [math.ceil(x)]. *)
Definition ceil (x : float) : result Z :=
  match Prim2SF x with
  | S754_zero _ => Ok 0
  | S754_infinity _ => Raise OverflowError
  | S754_nan => Raise ValueError
  | S754_finite s m e => Ok (- Z.shiftl (- signed s (Z.pos m)) e)
  end.

(** [float(n)] for an int [n]: correctly rounded, OverflowError when the
    int is too large for a binary64. *)
Definition float_of_int (n : Z) : result float :=
  match binary_normalize prec emax n 0 false with
  | S754_infinity _ => Raise OverflowError
  | sf => Ok (SF2Prim sf)
  end.

(** [x / y] on floats. *)
Definition float_truediv (x y : float) : result float :=
  if PrimFloat.eqb y 0%float then Raise ZeroDivisionError
  else Ok (PrimFloat.div x y).

(** Number of binary digits of a non-negative int. *)
Definition bit_length (n : Z) : Z :=
  if n =? 0 then 0 else Z.log2 n + 1.

(** [a / b] on ints: the quotient correctly rounded to binary64.  The
    quotient is first computed to at least 55 significant bits with a
    sticky last bit, then rounded to nearest-even. *)
Definition int_truediv (a b : Z) : result float :=
  if b =? 0 then Raise ZeroDivisionError
  else
    let negate := xorb (a <? 0) (b <? 0) in
    if a =? 0 then Ok (SF2Prim (S754_zero negate))
    else
      let A := Z.abs a in
      let B := Z.abs b in
      let k := Z.max 0 (56 + bit_length B - bit_length A) in
      let n := A * 2 ^ k in
      let q := n / B in
      let sticky := if n mod B =? 0 then 0 else 1 in
      match binary_normalize prec emax (signed negate (Z.lor q sticky)) (- k) false with
      | S754_infinity _ => Raise OverflowError
      | sf => Ok (SF2Prim sf)
      end.

(** [n / x] for an int [n] and a float [x]. *)
Definition int_div_float (n : Z) (x : float) : result float :=
  bind (float_of_int n) (fun y => float_truediv y x).

(** [x * n] for a float [x] and an int [n]. *)
Definition float_mul_int (x : float) (n : Z) : result float :=
  bind (float_of_int n) (fun y => Ok (PrimFloat.mul x y)).

(** [min(x, y)]: the second argument only when it is strictly smaller. *)
Definition min (x y : float) : float :=
  if PrimFloat.ltb y x then y else x.

End Py.

Import Py.

Declare Scope py_scope.
Delimit Scope py_scope with py.
Notation "x <- m ;; k" := (bind m (fun x => k))
  (at level 61, m at next level, right associativity) : py_scope.
Notation "' p <- m ;; k" := (bind m (fun p => k))
  (at level 61, p pattern, m at next level, right associativity) : py_scope.
Open Scope py_scope.

(** ** numpy: strided arrays *)

Module Np.

(** An n-dimensional array: a view of a flat buffer.  The element at
    multi-index [i0, i1, ...] is stored at [offset + i0*s0 + i1*s1 + ...];
    strides are counted in elements. *)
Record ndarray (A : Type) : Type := NdArray {
  shape : list nat;
  strides : list nat;
  offset : nat;
  buf : list A
}.
Arguments NdArray {A} shape strides offset buf.
Arguments shape {A} n.
Arguments strides {A} n.
Arguments offset {A} n.
Arguments buf {A} n.

Definition prod (l : list nat) : nat := fold_right Nat.mul 1%nat l.

Definition size {A} (a : ndarray A) : nat := prod (shape a).

(** Strides of a C-ordered (row-major) array of the given shape. *)
Fixpoint c_strides (sh : list nat) : list nat :=
  match sh with
  | [] => []
  | _ :: rest => prod rest :: c_strides rest
  end.

(** A freshly allocated C-ordered array. *)
Definition contiguous {A} (sh : list nat) (data : list A) : ndarray A :=
  NdArray sh (c_strides sh) 0%nat data.

(** Buffer positions of the elements of a view, in C order. *)
Fixpoint offsets (sh st : list nat) (off : nat) : list nat :=
  match sh, st with
  | [], _ => [off]
  | n :: sh', s :: st' =>
      flat_map (fun i => offsets sh' st' (off + i * s)%nat) (seq 0 n)
  | _ :: _, [] => []
  end.

(** The elements of an array in C order (what [a.ravel()] holds). *)
Definition elements {A} (d : A) (a : ndarray A) : list A :=
  map (fun o => nth o (buf a) d) (offsets (shape a) (strides a) (offset a)).

Fixpoint dot (idx st : list nat) : nat :=
  match idx, st with
  | i :: idx', s :: st' => (i * s + dot idx' st')%nat
  | _, _ => 0%nat
  end.

(** [a[i0, i1, ...]] for an in-range multi-index. *)
Definition item {A} (d : A) (a : ndarray A) (idx : list nat) : A :=
  nth (offset a + dot idx (strides a))%nat (buf a) d.

(** Iteration over an array: the sub-arrays along the first axis. *)
Definition subarrays {A} (a : ndarray A) : list (ndarray A) :=
  match shape a, strides a with
  | n :: sh, s :: st =>
      map (fun i => NdArray sh st (offset a + i * s)%nat (buf a)) (seq 0 n)
  | _, _ => []
  end.

Definition map_array {A B} (f : A -> B) (a : ndarray A) : ndarray B :=
  NdArray (shape a) (strides a) (offset a) (map f (buf a)).

Fixpoint set_nth {X} (i : nat) (x : X) (l : list X) : list X :=
  match l, i with
  | [], _ => []
  | _ :: t, O => x :: t
  | h :: t, S i' => h :: set_nth i' x t
  end.

Definition swap_nth {X} (d : X) (i j : nat) (l : list X) : list X :=
  set_nth i (nth j l d) (set_nth j (nth i l d) l).

(** [a.swapaxes(i, j)]: a view with the two axes exchanged. *)
Definition swapaxes {A} (a : ndarray A) (i j : nat) : result (ndarray A) :=
  if ((i <? length (shape a)) && (j <? length (shape a)))%nat
  then Ok (NdArray (swap_nth 0%nat i j (shape a))
                   (swap_nth 0%nat i j (strides a)) (offset a) (buf a))
  else Raise AxisError.

Definition zprod (l : list Z) : Z := fold_right Z.mul 1 l.

(** The shape [reshape] ends with: at most one negative entry, which is
    inferred from the array's size; the sizes must agree. *)
Definition resolve_shape (n : nat) (dims : list Z) : result (list nat) :=
  match filter (fun d => d <? 0) dims with
  | [] =>
      if zprod dims =? Z.of_nat n then Ok (map Z.to_nat dims)
      else Raise ValueError
  | [_] =>
      let known := zprod (filter (fun d => 0 <=? d) dims) in
      if (known =? 0) || negb (Z.of_nat n mod known =? 0) then Raise ValueError
      else Ok (map (fun d => if d <? 0 then Z.to_nat (Z.of_nat n / known)
                             else Z.to_nat d) dims)
  | _ => Raise ValueError
  end.

(** [a.reshape(d0, d1, ...)]: the same elements in C order under a new
    shape (numpy returns a view or a copy; the elements are the same). *)
Definition reshape {A} (d : A) (a : ndarray A) (dims : list Z) : result (ndarray A) :=
  sh <- resolve_shape (size a) dims ;;
  Ok (contiguous sh (elements d a)).

(** [np.pad(a, ((top, bottom), (left, right)), "edge")] on a 2-d array:
    every new cell repeats the nearest cell of the original. *)
Definition pad_edge {A} (d : A) (a : ndarray A) (top bottom left right : Z)
  : result (ndarray A) :=
  match shape a with
  | [h; w] =>
      if (top <? 0) || (bottom <? 0) || (left <? 0) || (right <? 0)
      then Raise ValueError
      else if ((h =? 0)%nat && (0 <? top + bottom))
              || ((w =? 0)%nat && (0 <? left + right))
      then Raise ValueError
      else
        let t := Z.to_nat top in
        let l := Z.to_nat left in
        let h' := (t + h + Z.to_nat bottom)%nat in
        let w' := (l + w + Z.to_nat right)%nat in
        Ok (contiguous [h'; w']
              (flat_map (fun r =>
                 map (fun c => item d a [Nat.min (r - t) (h - 1);
                                         Nat.min (c - l) (w - 1)])
                     (seq 0 w'))
                 (seq 0 h')))
  | _ => Raise ValueError
  end.

(** *** Broadcasting *)

(** Shapes are aligned at their last axis; here both are given reversed. *)
Fixpoint broadcast_rev (s1 s2 : list nat) : result (list nat) :=
  match s1, s2 with
  | [], _ => Ok s2
  | _, [] => Ok s1
  | a :: r1, b :: r2 =>
      r <- broadcast_rev r1 r2 ;;
      if (a =? b)%nat then Ok (a :: r)
      else if (a =? 1)%nat then Ok (b :: r)
      else if (b =? 1)%nat then Ok (a :: r)
      else Raise ValueError
  end.

Definition broadcast_shapes (s1 s2 : list nat) : result (list nat) :=
  fmap (@rev nat) (broadcast_rev (rev s1) (rev s2)).

(** Strides of the broadcast view: 0 along every stretched or added axis. *)
Fixpoint stretch_rev (sh st target : list nat) : list nat :=
  match target with
  | [] => []
  | t :: target' =>
      match sh, st with
      | a :: sh', s :: st' =>
          (if (a =? t)%nat then s else 0%nat) :: stretch_rev sh' st' target'
      | _, _ => 0%nat :: stretch_rev [] [] target'
      end
  end.

Definition broadcast_to {A} (a : ndarray A) (target : list nat) : ndarray A :=
  NdArray target
          (rev (stretch_rev (rev (shape a)) (rev (strides a)) (rev target)))
          (offset a) (buf a).

Fixpoint map2 {X Y W} (f : X -> Y -> W) (l1 : list X) (l2 : list Y) : list W :=
  match l1, l2 with
  | x :: r1, y :: r2 => f x y :: map2 f r1 r2
  | _, _ => []
  end.

(** *** Fixed-width integers *)

(** The value a two's-complement integer of [bits] bits holds for [z]. *)
Definition wrap (bits : Z) (z : Z) : Z :=
  (z + 2 ^ (bits - 1)) mod 2 ^ bits - 2 ^ (bits - 1).

(** uint8 to int16. *)
Definition int16_of_uint8 (b : byte) : Z := Z.of_N (Byte.to_N b).

(** [a - b] on int16 arrays. *)
Definition subtract_int16 (a b : ndarray Z) : result (ndarray Z) :=
  sh <- broadcast_shapes (shape a) (shape b) ;;
  Ok (contiguous sh
        (map2 (fun x y => wrap 16 (x - y))
              (elements 0 (broadcast_to a sh))
              (elements 0 (broadcast_to b sh)))).

(** [np.abs(a)] on an int16 array. *)
Definition abs_int16 (a : ndarray Z) : ndarray Z :=
  contiguous (shape a) (map (fun x => wrap 16 (Z.abs x)) (elements 0 a)).

Definition zsum (l : list Z) : Z := fold_right Z.add 0 l.

(** [a.sum((1, 2))] on an int16 array: the sums over the second and third
    axes, accumulated in int64. *)
Definition sum_axes_1_2 (a : ndarray Z) : result (ndarray Z) :=
  match shape a with
  | d0 :: d1 :: d2 :: rest =>
      let e := elements 0 a in
      let R := prod rest in
      Ok (contiguous (d0 :: rest)
            (flat_map (fun i0 =>
               map (fun r =>
                 wrap 64 (zsum
                   (flat_map (fun i1 =>
                      map (fun i2 => nth ((((i0 * d1 + i1) * d2 + i2) * R + r))%nat e 0)
                          (seq 0 d2))
                      (seq 0 d1))))
                 (seq 0 R))
               (seq 0 d0)))
  | _ => Raise AxisError
  end.

(** Index of the first occurrence of the minimum of a non-empty list. *)
Fixpoint argmin_from (best : Z) (besti : nat) (i : nat) (l : list Z) : nat :=
  match l with
  | [] => besti
  | x :: rest =>
      if x <? best then argmin_from x i (S i) rest
      else argmin_from best besti (S i) rest
  end.

(** [a.argmin()]: over the flattened array, first minimum. *)
Definition argmin (a : ndarray Z) : result nat :=
  match elements 0 a with
  | [] => Raise ValueError
  | x :: rest => Ok (argmin_from x 0%nat 1%nat rest)
  end.

(** [np.array(arrays, dtype=np.int16)] for a list of uint8 arrays: the
    arrays stacked along a new first axis; an empty list gives shape (0,). *)
Definition array_int16 (l : list (ndarray byte)) : result (ndarray Z) :=
  match l with
  | [] => Ok (contiguous [0%nat] [])
  | g :: _ =>
      if forallb (fun g' => if list_eq_dec Nat.eq_dec (shape g') (shape g)
                            then true else false) l
      then Ok (contiguous (length l :: shape g)
                 (flat_map (fun g' => map int16_of_uint8 (elements x00 g')) l))
      else Raise ValueError
  end.

End Np.

Import Np.

(** ** The collaborators: argparse and Pillow *)

Module Args.

(** The Namespace [parser.parse_args()] returns: one attribute per
    argument the parser declares (the open file [image_file] apart, which
    is consumed by [Image.open]). *)
Record Namespace : Type := {
  use_tile_dimensions : bool;
  contrast : float;
  char_set : string;
  font : string;
  font_size : option Z;
  h_tile_count : Z;
  v_tile_count : option Z;
  tile_width : float;
  tile_height : float
}.

End Args.

Import Args.

(** Values an attribute of the Namespace can hold. *)
Inductive value : Type :=
| VNone
| VBool (b : bool)
| VInt (n : Z)
| VFloat (x : float)
| VStr (s : string)
| VFile.

Definition of_option (v : option Z) : value :=
  match v with
  | Some n => VInt n
  | None => VNone
  end.

(** [vars(args)]: the attributes the parser sets, by dest. *)
Definition vars (args : Namespace) : list (string * value) :=
  [ ("image_file"%string, VFile);
    ("use_tile_dimensions"%string, VBool (use_tile_dimensions args));
    ("contrast"%string, VFloat (contrast args));
    ("char_set"%string, VStr (char_set args));
    ("font"%string, VStr (font args));
    ("font_size"%string, of_option (Args.font_size args));
    ("h_tile_count"%string, VInt (h_tile_count args));
    ("v_tile_count"%string, of_option (v_tile_count args));
    ("tile_width"%string, VFloat (Args.tile_width args));
    ("tile_height"%string, VFloat (Args.tile_height args)) ].

(** [args.name]: AttributeError when the Namespace has no such attribute. *)
Definition getattr (args : Namespace) (name : string) : result value :=
  match find (fun kv => String.eqb (fst kv) name) (vars args) with
  | Some kv => Ok (snd kv)
  | None => Raise AttributeError
  end.

(** Truth value of an object in a condition. *)
Definition truth (v : value) : bool :=
  match v with
  | VNone => false
  | VBool b => b
  | VInt n => negb (n =? 0)
  | VFloat x => negb (PrimFloat.eqb x 0%float)
  | VStr s => negb (String.eqb s EmptyString)
  | VFile => true
  end.

(** A decoded image: [size] is (width, height) and [luminance r c] is the
    sample of [img.convert("L")] at row [r], column [c]. *)
Record image : Type := {
  width : nat;
  height : nat;
  luminance : nat -> nat -> byte
}.

(** The Pillow operations [main.py] calls and this development does not
    look into: font loading, text drawing and contrast enhancement. *)
Record Pillow : Type := {
  FreeTypeFont : Type;
  (** [ImageFont.truetype(font, size)] *)
  truetype : string -> Z -> result FreeTypeFont;
  (** [draw_text f tw th xy c r k]: the sample at row [r], column [k] of a
      new black "L" image of size [(tw, th)] after
      [draw.text(xy, c, 0xff, f, anchor="mm")]. *)
  draw_text : FreeTypeFont -> nat -> nat -> Z * Z -> ascii -> nat -> nat -> byte;
  (** [enhance factor img r k]: the sample at row [r], column [k] of
      [ImageEnhance.Contrast(img.convert("L")).enhance(factor)]. *)
  enhance : float -> image -> nat -> nat -> byte
}.

(** ** main.py *)

Definition DEFAULT_CONTRAST : float := 1%float.
Definition DEFAULT_FONT : string := "Courier".
Definition DEFAULT_FONT_SIZE : Z := 16.
Definition DEFAULT_H_TILE_COUNT : Z := 80.
Definition DEFAULT_TILE_WIDTH : float := 0x1.3333333333333p-1%float.
Definition DEFAULT_TILE_HEIGHT : float := 1.5%float.

(** A 2-d array given by its samples. *)
Definition tabulate {A} (h w : nat) (f : nat -> nat -> A) : ndarray A :=
  contiguous [h; w] (flat_map (fun r => map (fun c => f r c) (seq 0 w)) (seq 0 h)).

Definition pad_with (a : ndarray byte) (h_padding v_padding : Z)
  : result (ndarray byte) :=
  let left := h_padding / 2 in
  let right := h_padding - left in
  let top := v_padding / 2 in
  let bottom := v_padding - top in
  pad_edge x00 a top bottom left right.

(** The first lines of [to_tiles]: the tile counts, from the frame's
    shape ([h, w, *_ = frame.shape]). *)
Definition frame_tile_counts (sh : list nat) (tile_width tile_height : Z)
  : result (Z * Z) :=
  match sh with
  | h :: w :: _ =>
      v_tile_count <- floordiv (Z.of_nat h) tile_height ;;
      h_tile_count <- floordiv (Z.of_nat w) tile_width ;;
      Ok (v_tile_count, h_tile_count)
  | _ => Raise ValueError
  end.

Definition to_tiles (frame : ndarray byte) (tile_width tile_height : Z)
  : result (ndarray byte) :=
  '(v_tile_count, h_tile_count) <-
     frame_tile_counts (shape frame) tile_width tile_height ;;
  r <- reshape x00 frame [v_tile_count; tile_height; h_tile_count; tile_width] ;;
  swapaxes r 1 2.

(** What the sizing branch of [main] leaves in its local variables; the
    two paddings are the amounts passed to [pad_with]. *)
Record geometry : Type := {
  tile_width : Z;
  tile_height : Z;
  font_size : Z;
  h_padding : Z;
  v_padding : Z
}.

(** The [-d] branch: tile dimensions given, tile counts follow. *)
Definition resolve_tile_dimensions (args : Namespace) (w h : Z)
    (frame : ndarray byte) : result (geometry * ndarray byte) :=
  let font_size :=
    match Args.font_size args with
    | None => DEFAULT_FONT_SIZE
    | Some s => s
    end in
  absolute_tile_width <- getattr args "absolute_tile_width" ;;
  tile_width <-
    (if truth absolute_tile_width then ceil (Args.tile_width args)
     else x <- float_mul_int (Args.tile_width args) font_size ;; ceil x) ;;
  absolute_tile_height <- getattr args "absolute_tile_height" ;;
  tile_height <-
    (if truth absolute_tile_height then ceil (Args.tile_height args)
     else x <- float_mul_int (Args.tile_height args) font_size ;; ceil x) ;;
  h_padding <- mod_ (- w) tile_width ;;
  v_padding <- mod_ (- h) tile_height ;;
  frame' <- pad_with frame h_padding v_padding ;;
  Ok (Build_geometry tile_width tile_height font_size h_padding v_padding, frame').

(** The tile counts of the other branch: [-x], and [-y] or the count that
    keeps the aspect ratio. *)
Definition tile_counts (args : Namespace) (w h : Z) : result (Z * Z) :=
  let h_tile_count := h_tile_count args in
  v_tile_count <-
    match v_tile_count args with
    | Some v => Ok v
    | None =>
        a <- int_truediv (h_tile_count * h) w ;;
        b <- float_truediv (PrimFloat.mul a (Args.tile_width args))
                           (Args.tile_height args) ;;
        round b
    end ;;
  Ok (h_tile_count, v_tile_count).

(** Lines 146-150: the image size spread over the tile counts.  Returns
    [(tile_width, tile_height, h_pad, v_pad)]. *)
Definition tile_dimensions (w h h_tile_count v_tile_count : Z)
  : result (Z * Z * Z * Z) :=
  '(tile_width_neg, h_pad) <- divmod (- w) h_tile_count ;;
  '(tile_height_neg, v_pad) <- divmod (- h) v_tile_count ;;
  let tile_width := - tile_width_neg in
  let tile_height := - tile_height_neg in
  Ok (tile_width, tile_height, h_pad, v_pad).

(** Lines 153-154: the font size given, or the largest that fits the tile. *)
Definition fitting_font_size (args : Namespace) (tile_width tile_height : Z)
  : result Z :=
  match Args.font_size args with
  | Some s => Ok s
  | None =>
      a <- int_div_float tile_width (Args.tile_width args) ;;
      b <- int_div_float tile_height (Args.tile_height args) ;;
      floor (Py.min a b)
  end.

(** The branch without [-d]: tile counts given, tile dimensions follow. *)
Definition resolve_tile_counts (args : Namespace) (w h : Z)
    (frame : ndarray byte) : result (geometry * ndarray byte) :=
  '(h_tile_count, v_tile_count) <- tile_counts args w h ;;
  '(tile_width, tile_height, h_pad, v_pad) <-
     tile_dimensions w h h_tile_count v_tile_count ;;
  font_size <- fitting_font_size args tile_width tile_height ;;
  frame' <- pad_with frame h_pad v_pad ;;
  Ok (Build_geometry tile_width tile_height font_size h_pad v_pad, frame').

(** Lines 118-157 of [main]: the sizing arguments, the image size and the
    frame give the geometry and the padded frame. *)
Definition resolve (args : Namespace) (w h : Z) (frame : ndarray byte)
  : result (geometry * ndarray byte) :=
  if use_tile_dimensions args then resolve_tile_dimensions args w h frame
  else resolve_tile_counts args w h frame.

(** [closest_char]: the closure of [main] over [char_set] and
    [char_glyphs]. *)
Definition closest_char (char_set : string) (char_glyphs : ndarray Z)
    (tile : ndarray byte) : result ascii :=
  diff <- subtract_int16 char_glyphs (map_array int16_of_uint8 tile) ;;
  sums <- sum_axes_1_2 (abs_int16 diff) ;;
  i <- argmin sums ;;
  match String.get i char_set with
  | Some c => Ok c
  | None => Raise IndexError
  end.

Fixpoint mapM {A B} (f : A -> result B) (l : list A) : result (list B) :=
  match l with
  | [] => Ok []
  | x :: rest => y <- f x ;; ys <- mapM f rest ;; Ok (y :: ys)
  end.

(** A run of the program: the lines printed and how [main] ended. *)
Record run : Type := {
  stdout : list string;
  outcome : result Z
}.

(** The printing loop: one line per row of tiles. *)
Fixpoint print_rows (char_set : string) (char_glyphs : ndarray Z)
    (rows : list (ndarray byte)) (printed : list string) : run :=
  match rows with
  | [] => {| stdout := printed; outcome := Ok 0 |}
  | row :: rest =>
      match mapM (closest_char char_set char_glyphs) (subarrays row) with
      | Raise e => {| stdout := printed; outcome := Raise e |}
      | Ok cs =>
          print_rows char_set char_glyphs rest
                     (printed ++ [string_of_list_ascii cs])
      end
  end.

Section Main.

Context (P : Pillow).

(** The frame: the contrast-enhanced luminance samples, [height] rows of
    [width] columns. *)
Definition frame_of (args : Namespace) (img : image) : ndarray byte :=
  tabulate (height img) (width img) (enhance P (contrast args) img).

Definition to_char_glyph (f : FreeTypeFont P) (tile_width tile_height : Z)
    (c : ascii) : result (ndarray byte) :=
  if (tile_width <? 0) || (tile_height <? 0) then Raise ValueError
  else
    x <- (q <- int_truediv tile_width 2 ;; round q) ;;
    y <- (q <- int_truediv tile_height 2 ;; round q) ;;
    let tw := Z.to_nat tile_width in
    let th := Z.to_nat tile_height in
    Ok (tabulate th tw (draw_text P f tw th (x, y) c)).

(** The geometry a run resolves and the frame it goes on with. *)
Definition resolved (args : Namespace) (img : image)
  : result (geometry * ndarray byte) :=
  resolve args (Z.of_nat (width img)) (Z.of_nat (height img)) (frame_of args img).

(** [main] up to the printing loop: the glyph array and the tiles. *)
Definition prepare (args : Namespace) (img : image)
  : result (ndarray Z * ndarray byte) :=
  '(g, frame) <- resolved args img ;;
  f <- truetype P (font args) (font_size g) ;;
  glyphs <- mapM (to_char_glyph f (tile_width g) (tile_height g))
                 (list_ascii_of_string (char_set args)) ;;
  char_glyphs <- array_int16 glyphs ;;
  tiles <- to_tiles frame (tile_width g) (tile_height g) ;;
  Ok (char_glyphs, tiles).

Definition main (args : Namespace) (img : image) : run :=
  match prepare args img with
  | Raise e => {| stdout := []; outcome := Raise e |}
  | Ok (char_glyphs, tiles) =>
      print_rows (char_set args) char_glyphs (subarrays tiles) []
  end.

End Main.

(** ** Specification-side notions *)

(** [t] is the ceiling of the quotient [a / b], for a positive [b]: the
    least integer [t] with [a <= t * b]. *)
Definition is_ceil_quotient (t a b : Z) : Prop := (t - 1) * b < a /\ a <= t * b.

(** The bound the specification states for the padding of a run: less
    than the tile dimension on each axis. *)
Definition padding_below_tile_size (g : geometry) : Prop :=
  0 <= h_padding g <= tile_width g - 1 /\
  0 <= v_padding g <= tile_height g - 1.

(** The arguments that size the tiles: everything the parser accepts but
    the contrast, the character set and the font name. *)
Definition sizing_arguments (args : Namespace)
  : bool * option Z * Z * option Z * float * float :=
  (use_tile_dimensions args, Args.font_size args, h_tile_count args,
   v_tile_count args, Args.tile_width args, Args.tile_height args).

(** The geometry of a run: the sizing locals of [main] and the tile counts
    [(v_tile_count, h_tile_count)] that [to_tiles] derives from the padded
    frame. *)
Definition run_geometry (P : Pillow) (args : Namespace) (img : image)
  : result (geometry * (Z * Z)) :=
  '(g, frame) <- resolved P args img ;;
  counts <- frame_tile_counts (shape frame) (tile_width g) (tile_height g) ;;
  Ok (g, counts).

(** The tile in row [i], column [j] of the grid of tiles, reached the way
    [main] reaches it: by iterating over the rows, then over a row. *)
Definition tile_at (tiles : ndarray byte) (i j : nat) : ndarray byte :=
  nth j (subarrays (nth i (subarrays tiles) (contiguous [] []))) (contiguous [] []).

(** The flattened matrix of a uint8 array: its samples as integers, in
    row-major order. *)
Definition samples (a : ndarray byte) : list Z :=
  map int16_of_uint8 (elements x00 a).

(** The L1 (Manhattan) distance between two flattened matrices: the sum
    of the absolute pixel-wise differences. *)
Definition l1_distance (g t : list Z) : Z :=
  zsum (map (fun p => Z.abs (fst p - snd p)) (combine g t)).

(** [i] is the least index at which the list takes its minimum. *)
Definition first_minimum (l : list Z) (i : nat) : Prop :=
  (i < length l)%nat /\
  (forall j, (j < length l)%nat -> nth i l 0 <= nth j l 0) /\
  (forall j, (j < i)%nat -> nth i l 0 < nth j l 0).

(** What [closest_char] computes for one glyph, on the flattened
    matrices: int16 differences, int16 absolute values, an int64 sum. *)
Definition glyph_sum (g t : list Z) : Z :=
  wrap 64 (zsum (map (fun x => wrap 16 (Z.abs x))
                     (map2 (fun x y => wrap 16 (x - y)) g t))).

(** [argmin] on the list of the elements. *)
Definition first_argmin (l : list Z) : nat :=
  match l with
  | [] => 0%nat
  | x :: rest => argmin_from x 0%nat 1%nat rest
  end.

(** The cell of the original axis that a cell of the padded axis repeats:
    the first one before the original, the last one after it. *)
Definition nearest (before n i : nat) : nat :=
  if (i <? before)%nat then 0%nat
  else if (before + n <=? i)%nat then (n - 1)%nat
  else (i - before)%nat.

(** The ink of a glyph: the sum of its samples. *)
Definition ink (g : ndarray byte) : Z := zsum (samples g).

(** The nearest integer to [t / 2], ties going to the even one. *)
Definition half_to_even (t : Z) : Z :=
  if t mod 4 =? 3 then (t + 1) / 2 else t / 2.

(** [p] holds at [t], [t + 1], ..., for [count] integers. *)
Fixpoint all_from (p : Z -> bool) (t : Z) (count : nat) : bool :=
  match count with
  | O => true
  | S c => p t && all_from p (t + 1) c
  end.

(** [round(t / 2)], as [to_char_glyph] computes it, returns
    [half_to_even t]. *)
Definition anchor_rounds (t : Z) : bool :=
  match (q <- int_truediv t 2 ;; round q) with
  | Ok x => x =? half_to_even t
  | Raise _ => false
  end.

(** The exceptions of the builtins, of argparse and of numpy that geometry
    resolution can end with. *)
Definition resolver_error (e : exn) : Prop :=
  e = ZeroDivisionError \/ e = ValueError \/ e = OverflowError \/
  e = AttributeError.

(** ** Inputs for examples *)

(** A stand-in for Pillow: every font loads, ['#'] is drawn as a full
    block, ['+'] as a diagonal stroke and any other character as blank
    ink; contrast enhancement leaves the samples unchanged (what a factor
    of 1 does). *)
Definition block_font : Pillow := {|
  FreeTypeFont := Z;
  truetype := fun _ size => Ok size;
  draw_text := fun _ _ _ _ c r k =>
    if Ascii.eqb c "#" then xff
    else if Ascii.eqb c "+" then (if Nat.eqb r k then xff else x00)
    else x00;
  enhance := fun _ img r k => luminance img r k
|}.

(** [-x x -y y -s s -C chars] *)
Definition tile_count_args (x : Z) (y : option Z) (s : option Z) (chars : string)
  : Namespace :=
  {| use_tile_dimensions := false; contrast := DEFAULT_CONTRAST;
     char_set := chars; font := DEFAULT_FONT; Args.font_size := s;
     h_tile_count := x; v_tile_count := y;
     Args.tile_width := DEFAULT_TILE_WIDTH;
     Args.tile_height := DEFAULT_TILE_HEIGHT |}.

(** [-d -C chars] *)
Definition tile_dimension_args (chars : string) : Namespace :=
  {| use_tile_dimensions := true; contrast := DEFAULT_CONTRAST;
     char_set := chars; font := DEFAULT_FONT; Args.font_size := None;
     h_tile_count := DEFAULT_H_TILE_COUNT; v_tile_count := None;
     Args.tile_width := DEFAULT_TILE_WIDTH;
     Args.tile_height := DEFAULT_TILE_HEIGHT |}.

(** An image of one colour. *)
Definition flat_image (w h : nat) (b : byte) : image :=
  {| width := w; height := h; luminance := fun _ _ => b |}.

(** The glyphs of a character set under [block_font], for tiles of the
    given size, as [main] renders them. *)
Definition block_glyphs (chars : string) (tile_width tile_height : Z)
  : result (list (ndarray byte)) :=
  mapM (to_char_glyph block_font 16 tile_width tile_height)
       (list_ascii_of_string chars).

(** A 2x2 tile with a diagonal stroke. *)
Definition diagonal_tile : ndarray byte :=
  tabulate 2 2 (fun r k => if Nat.eqb r k then xf0 else x10).

(** A 2x2 tile without ink. *)
Definition blank_tile : ndarray byte :=
  tabulate 2 2 (fun _ _ => x00).

(** ** Geometry resolution *)

(** [divmod(-a, b)] for a positive [b]: minus the ceiling of [a / b], and
    what the ceiling times [b] exceeds [a] by. *)
Lemma divmod_neg_ceiling (a b : Z) :
  1 <= b ->
  divmod (- a) b = Ok (- ((a + b - 1) / b), ((a + b - 1) / b) * b - a).
Proof.
  intros Hb. unfold divmod.
  destruct (Z.eqb_spec b 0) as [->|_]; [lia|].
  assert (Hq : - a / b = - ((a + b - 1) / b)).
  { symmetry. apply Z.div_unique with (r := ((a + b - 1) / b) * b - a).
    - left. pose proof (Z.mod_pos_bound (a + b - 1) b ltac:(lia)).
      pose proof (Z.div_mod (a + b - 1) b ltac:(lia)). lia.
    - lia. }
  rewrite Z.mod_eq by lia. rewrite Hq. f_equal. f_equal. lia.
Qed.

Lemma ceiling_quotient (a b : Z) :
  1 <= b -> is_ceil_quotient ((a + b - 1) / b) a b.
Proof.
  intros Hb. unfold is_ceil_quotient.
  pose proof (Z.mod_pos_bound (a + b - 1) b ltac:(lia)).
  pose proof (Z.div_mod (a + b - 1) b ltac:(lia)). lia.
Qed.

Lemma is_ceil_quotient_unique (t t' a b : Z) :
  1 <= b -> is_ceil_quotient t a b -> is_ceil_quotient t' a b -> t = t'.
Proof. unfold is_ceil_quotient. intros Hb [H1 H2] [H3 H4]. nia. Qed.

Lemma tile_dimensions_spread (w h n v : Z) :
  1 <= n -> 1 <= v ->
  tile_dimensions w h n v =
  Ok ((w + n - 1) / n, (h + v - 1) / v,
      (w + n - 1) / n * n - w, (h + v - 1) / v * v - h).
Proof.
  intros Hn Hv. unfold tile_dimensions.
  rewrite (divmod_neg_ceiling w n Hn), (divmod_neg_ceiling h v Hv).
  cbn. now rewrite !Z.opp_involutive.
Qed.

Lemma resolve_tile_counts_inv args w h frame g frame' :
  resolve_tile_counts args w h frame = Ok (g, frame') ->
  exists n v,
    tile_counts args w h = Ok (n, v) /\
    tile_dimensions w h n v =
      Ok (tile_width g, tile_height g, h_padding g, v_padding g) /\
    fitting_font_size args (tile_width g) (tile_height g) = Ok (font_size g) /\
    pad_with frame (h_padding g) (v_padding g) = Ok frame'.
Proof.
  unfold resolve_tile_counts. intros H.
  destruct (tile_counts args w h) as [[n v]|e] eqn:E1; cbn in H; [|discriminate].
  destruct (tile_dimensions w h n v) as [[[[tw th] hp] vp]|e] eqn:E2; cbn in H; [|discriminate].
  destruct (fitting_font_size args tw th) as [fs|e] eqn:E3; cbn in H; [|discriminate].
  destruct (pad_with frame hp vp) as [fr|e] eqn:E4; cbn in H; [|discriminate].
  inversion H; subst; cbn. exists n, v. repeat split; assumption.
Qed.

(** C3: in tile-count mode, for an image of width [w >= 1] and height
    [h >= 1] and resolved tile counts [n >= 1] and [v >= 1], lines 146-150
    yield the tile width [ceil(w / n)] with horizontal padding
    [tile_width * n - w], and the tile height [ceil(h / v)] with vertical
    padding [tile_height * v - h]; these are the values every successful
    resolution reports. *)
Theorem tile_count_mode_spreads_image (args : Namespace) (w h n v : Z) :
  use_tile_dimensions args = false ->
  1 <= w -> 1 <= h ->
  tile_counts args w h = Ok (n, v) -> 1 <= n -> 1 <= v ->
  exists tw th hp vp,
    tile_dimensions w h n v = Ok (tw, th, hp, vp) /\
    is_ceil_quotient tw w n /\ hp = tw * n - w /\
    is_ceil_quotient th h v /\ vp = th * v - h /\
    forall frame g frame',
      resolve args w h frame = Ok (g, frame') ->
      tile_width g = tw /\ h_padding g = hp /\
      tile_height g = th /\ v_padding g = vp.
Proof.
  intros Hd Hw Hh Hc Hn Hv.
  exists ((w + n - 1) / n), ((h + v - 1) / v),
         ((w + n - 1) / n * n - w), ((h + v - 1) / v * v - h).
  split; [apply tile_dimensions_spread; assumption|].
  repeat split; try (apply ceiling_quotient; assumption).
  all: unfold resolve in H; rewrite Hd in H;
    apply resolve_tile_counts_inv in H;
    destruct H as (n' & v' & Hc' & Hdim & _);
    rewrite Hc in Hc'; inversion Hc'; subst n' v';
    rewrite tile_dimensions_spread in Hdim by assumption;
    inversion Hdim; reflexivity.
Qed.

Lemma tile_count_mode_spreads_image_witness :
  exists tw th hp vp,
    tile_dimensions 10 10 7 10 = Ok (tw, th, hp, vp) /\
    is_ceil_quotient tw 10 7 /\ hp = tw * 7 - 10 /\
    is_ceil_quotient th 10 10 /\ vp = th * 10 - 10 /\
    forall frame g frame',
      resolve (tile_count_args 7 (Some 10) (Some 16) "#") 10 10 frame
        = Ok (g, frame') ->
      tile_width g = tw /\ h_padding g = hp /\
      tile_height g = th /\ v_padding g = vp.
Proof.
  apply (tile_count_mode_spreads_image
           (tile_count_args 7 (Some 10) (Some 16) "#") 10 10 7 10);
    try reflexivity; lia.
Defined.

(** *** Shapes under padding *)

Lemma pad_with_shape (a : ndarray byte) (h w : nat) (hp vp : Z) :
  shape a = [h; w] -> (1 <= h)%nat -> (1 <= w)%nat -> 0 <= hp -> 0 <= vp ->
  exists a',
    pad_with a hp vp = Ok a' /\
    shape a' = [Z.to_nat (Z.of_nat h + vp); Z.to_nat (Z.of_nat w + hp)] /\
    strides a' = [Z.to_nat (Z.of_nat w + hp); 1%nat] /\
    offset a' = 0%nat.
Proof.
  intros Hs Hh Hw Hhp Hvp. unfold pad_with, pad_edge. rewrite Hs.
  assert (0 <= hp / 2 <= hp) by (split; [apply Z.div_pos; lia | apply Z.div_le_upper_bound; lia]).
  assert (0 <= vp / 2 <= vp) by (split; [apply Z.div_pos; lia | apply Z.div_le_upper_bound; lia]).
  replace (vp / 2 <? 0) with false by (symmetry; apply Z.ltb_ge; lia).
  replace (vp - vp / 2 <? 0) with false by (symmetry; apply Z.ltb_ge; lia).
  replace (hp / 2 <? 0) with false by (symmetry; apply Z.ltb_ge; lia).
  replace (hp - hp / 2 <? 0) with false by (symmetry; apply Z.ltb_ge; lia).
  replace (h =? 0)%nat with false by (symmetry; apply Nat.eqb_neq; lia).
  replace (w =? 0)%nat with false by (symmetry; apply Nat.eqb_neq; lia).
  cbn [orb andb]. eexists. split; [reflexivity|].
  cbn [contiguous shape strides offset c_strides prod fold_right].
  repeat split; repeat f_equal; lia.
Qed.

(** Whether [pad_with] succeeds, and the shape it returns, depend on the
    shape of the array alone. *)
Lemma pad_with_shape_only (a b : ndarray byte) (hp vp : Z) :
  shape a = shape b ->
  fmap shape (pad_with a hp vp) = fmap shape (pad_with b hp vp).
Proof.
  intros Hs. unfold pad_with, pad_edge. rewrite <- Hs.
  destruct (shape a) as [|h [|w [|? ?]]]; try reflexivity.
  repeat match goal with
         | |- context [if ?c then _ else _] => destruct c
         end; reflexivity.
Qed.

(** C2, as stated, fails: a 10x10 image asked for 7 tiles across gets
    tiles 2 pixels wide and 4 columns of padding, more than
    [tile_width - 1]. *)
Lemma padding_exceeds_tile_width :
  exists g frame',
    resolve (tile_count_args 7 (Some 10) (Some 16) "#") 10 10
            (frame_of block_font (tile_count_args 7 (Some 10) (Some 16) "#")
                      (flat_image 10 10 x00))
      = Ok (g, frame') /\
    tile_width g = 2 /\ h_padding g = 4 /\
    ~ padding_below_tile_size g.
Proof.
  eexists. eexists. split; [vm_compute; reflexivity|].
  unfold padding_below_tile_size. cbn. repeat split; lia.
Qed.

(** C2, amended: for an image (frame) of positive width [w] and height [h]
    and positive resolved tile counts [n] and [v], padding succeeds, the
    padded width and height are [tile_width * n] and [tile_height * v]
    (exact multiples of the positive tile width and height), and the
    horizontal and vertical padding lie within [0, n - 1] and [0, v - 1]:
    the bound is the tile count, not the tile dimension. *)
Theorem padded_frame_is_tile_multiple (args : Namespace) (w h n v : Z)
    (frame : ndarray byte) :
  use_tile_dimensions args = false ->
  1 <= w -> 1 <= h ->
  shape frame = [Z.to_nat h; Z.to_nat w] ->
  tile_counts args w h = Ok (n, v) -> 1 <= n -> 1 <= v ->
  exists tw th hp vp frame',
    tile_dimensions w h n v = Ok (tw, th, hp, vp) /\
    pad_with frame hp vp = Ok frame' /\
    1 <= tw /\ 1 <= th /\
    shape frame' = [Z.to_nat (h + vp); Z.to_nat (w + hp)] /\
    w + hp = tw * n /\ h + vp = th * v /\
    0 <= hp <= n - 1 /\ 0 <= vp <= v - 1 /\
    forall fs,
      fitting_font_size args tw th = Ok fs ->
      resolve args w h frame = Ok (Build_geometry tw th fs hp vp, frame').
Proof.
  intros Hd Hw Hh Hs Hc Hn Hv.
  pose proof (ceiling_quotient w n Hn) as [Cw1 Cw2].
  pose proof (ceiling_quotient h v Hv) as [Ch1 Ch2].
  set (tw := (w + n - 1) / n) in *. set (th := (h + v - 1) / v) in *.
  destruct (pad_with_shape frame (Z.to_nat h) (Z.to_nat w) (tw * n - w) (th * v - h))
    as (frame' & Hp & Hsh & _); try assumption; try lia.
  exists tw, th, (tw * n - w), (th * v - h), frame'.
  split; [apply tile_dimensions_spread; assumption|].
  split; [assumption|].
  split; [nia|]. split; [nia|].
  split; [rewrite Hsh; repeat f_equal; lia|].
  split; [lia|]. split; [lia|]. split; [lia|]. split; [lia|].
  intros fs Hfs. unfold resolve. rewrite Hd. unfold resolve_tile_counts.
  rewrite Hc. cbn. rewrite tile_dimensions_spread by assumption. cbn.
  fold tw th. rewrite Hfs. cbn. rewrite Hp. reflexivity.
Qed.

Lemma padded_frame_is_tile_multiple_witness :
  exists tw th hp vp frame',
    tile_dimensions 10 10 7 10 = Ok (tw, th, hp, vp) /\
    pad_with (frame_of block_font (tile_count_args 7 (Some 10) (Some 16) "#")
                       (flat_image 10 10 x00)) hp vp = Ok frame' /\
    1 <= tw /\ 1 <= th /\
    shape frame' = [Z.to_nat (10 + vp); Z.to_nat (10 + hp)] /\
    10 + hp = tw * 7 /\ 10 + vp = th * 10 /\
    0 <= hp <= 7 - 1 /\ 0 <= vp <= 10 - 1 /\
    forall fs,
      fitting_font_size (tile_count_args 7 (Some 10) (Some 16) "#") tw th = Ok fs ->
      resolve (tile_count_args 7 (Some 10) (Some 16) "#") 10 10
              (frame_of block_font (tile_count_args 7 (Some 10) (Some 16) "#")
                        (flat_image 10 10 x00))
        = Ok (Build_geometry tw th fs hp vp, frame').
Proof.
  apply (padded_frame_is_tile_multiple
           (tile_count_args 7 (Some 10) (Some 16) "#") 10 10 7 10);
    try reflexivity; lia.
Defined.

(** *** Failures of the resolver *)

Lemma round_raises (x : float) (e : exn) :
  round x = Raise e -> e = ValueError \/ e = OverflowError.
Proof.
  unfold round. destruct (Prim2SF x); intros H; inversion H; auto.
Qed.

Lemma divmod_by_zero (a : Z) : divmod a 0 = Raise ZeroDivisionError.
Proof. reflexivity. Qed.

Lemma tile_dimensions_no_tiles_across (w h v : Z) :
  tile_dimensions w h 0 v = Raise ZeroDivisionError.
Proof. reflexivity. Qed.

(** C6, as stated, fails: with [-x 0] the resolver does attempt the
    division, and what the run ends with is the ZeroDivisionError of
    [divmod], not an InvalidGeometry error. *)
Lemma zero_tile_count_is_not_invalid_geometry :
  resolve (tile_count_args 0 (Some 5) (Some 16) "#") 10 10
          (frame_of block_font (tile_count_args 0 (Some 5) (Some 16) "#")
                    (flat_image 10 10 x00))
    = Raise ZeroDivisionError /\
  resolve (tile_count_args 0 (Some 5) (Some 16) "#") 10 10
          (frame_of block_font (tile_count_args 0 (Some 5) (Some 16) "#")
                    (flat_image 10 10 x00))
    <> Raise InvalidGeometry.
Proof.
  assert (H : resolve (tile_count_args 0 (Some 5) (Some 16) "#") 10 10
          (frame_of block_font (tile_count_args 0 (Some 5) (Some 16) "#")
                    (flat_image 10 10 x00)) = Raise ZeroDivisionError)
    by (vm_compute; reflexivity).
  split; [exact H|]. rewrite H. discriminate.
Qed.

(** A negative tile count is not rejected either: the resolver returns a
    negative tile width. *)
Example negative_tile_count_resolves :
  fmap fst (resolve (tile_count_args (-3) (Some 3) (Some 16) "#") 9 9
              (frame_of block_font (tile_count_args (-3) (Some 3) (Some 16) "#")
                        (flat_image 9 9 x00)))
  = Ok (Build_geometry (-3) 3 16 0 0).
Proof. vm_compute. reflexivity. Qed.

(** With [-x 0] the resolver never returns a geometry: it fails by
    dividing, with ZeroDivisionError whenever the vertical tile count is
    supplied; when that count is derived, the only other failures are the
    ValueError or OverflowError of [round] on a non-finite ratio. *)
Lemma zero_tile_count_divides_by_zero (args : Namespace) (w h : Z)
    (frame : ndarray byte) :
  use_tile_dimensions args = false ->
  h_tile_count args = 0 ->
  exists e,
    resolve args w h frame = Raise e /\
    e <> InvalidGeometry /\
    (e = ZeroDivisionError \/
     (v_tile_count args = None /\ (e = ValueError \/ e = OverflowError))).
Proof.
  intros Hd Hx. unfold resolve, resolve_tile_counts, tile_counts.
  rewrite Hd, Hx.
  destruct (v_tile_count args) as [v|].
  - exists ZeroDivisionError. cbn. split; [reflexivity|]. split; [discriminate|now left].
  - rewrite Z.mul_0_l.
    destruct (int_truediv 0 w) as [a|e] eqn:Ea.
    + cbn [bind].
      destruct (float_truediv (PrimFloat.mul a (Args.tile_width args))
                              (Args.tile_height args)) as [b|e] eqn:Eb.
      * cbn [bind]. destruct (round b) as [v|e] eqn:Er.
        -- exists ZeroDivisionError. cbn.
           split; [reflexivity|]. split; [discriminate|now left].
        -- exists e. cbn. split; [reflexivity|].
           destruct (round_raises _ _ Er) as [-> | ->];
             (split; [discriminate|right; split; [reflexivity|auto]]).
      * exists e. cbn. split; [reflexivity|].
        unfold float_truediv in Eb.
        destruct (PrimFloat.eqb (Args.tile_height args) 0); inversion Eb.
        split; [discriminate|now left].
    + exists e. cbn. split; [reflexivity|].
      unfold int_truediv in Ea.
      destruct (w =? 0); [|cbn in Ea; discriminate].
      inversion Ea. split; [discriminate|now left].
Qed.

(** The Namespace has no attribute [absolute_tile_width]: the [-d] branch
    stops at its first read of it. *)
Lemma resolve_tile_dimensions_raises (args : Namespace) (w h : Z)
    (frame : ndarray byte) :
  resolve_tile_dimensions args w h frame = Raise AttributeError.
Proof. reflexivity. Qed.

(** C5 (the code departs from the claim): with [-d], every run ends with
    an AttributeError before any tile dimension is computed and prints
    nothing, whatever the image and the other arguments. *)
Theorem tile_dimension_mode_fails (P : Pillow) (args : Namespace) (img : image) :
  use_tile_dimensions args = true ->
  resolved P args img = Raise AttributeError /\
  main P args img = {| stdout := []; outcome := Raise AttributeError |}.
Proof.
  intros Hd.
  assert (H : resolved P args img = Raise AttributeError).
  { unfold resolved, resolve. rewrite Hd. apply resolve_tile_dimensions_raises. }
  split; [exact H|]. unfold main, prepare. rewrite H. reflexivity.
Qed.

Lemma tile_dimension_mode_fails_witness :
  resolved block_font (tile_dimension_args "#") (flat_image 10 10 x00)
    = Raise AttributeError /\
  main block_font (tile_dimension_args "#") (flat_image 10 10 x00)
    = {| stdout := []; outcome := Raise AttributeError |}.
Proof.
  apply (tile_dimension_mode_fails block_font (tile_dimension_args "#")
           (flat_image 10 10 x00)).
  reflexivity.
Defined.

(** *** The geometry depends on the image through its size only *)

Lemma resolve_tile_counts_shape (args1 args2 : Namespace) (w h : Z)
    (f1 f2 : ndarray byte) :
  sizing_arguments args1 = sizing_arguments args2 ->
  shape f1 = shape f2 ->
  fmap (fun r => (fst r, shape (snd r))) (resolve_tile_counts args1 w h f1) =
  fmap (fun r => (fst r, shape (snd r))) (resolve_tile_counts args2 w h f2).
Proof.
  intros Ha Hs. unfold sizing_arguments in Ha.
  injection Ha as _ Hfs Hx Hy Htw Hth.
  unfold resolve_tile_counts, tile_counts, fitting_font_size.
  rewrite Hfs, Hx, Hy, Htw, Hth.
  match goal with
  | |- fmap _ (bind ?m _) = fmap _ (bind ?m _) => destruct m as [[n v]|e]
  end; [cbn [bind]|reflexivity].
  destruct (tile_dimensions w h n v) as [[[[tw th] hp] vp]|e]; [cbn [bind]|reflexivity].
  match goal with
  | |- fmap _ (bind ?m _) = fmap _ (bind ?m _) => destruct m as [fs|e]
  end; [cbn [bind]|reflexivity].
  pose proof (pad_with_shape_only f1 f2 hp vp Hs) as Hp.
  destruct (pad_with f1 hp vp), (pad_with f2 hp vp); cbn in Hp |- *;
    inversion Hp; congruence.
Qed.

Lemma frame_of_shape (P : Pillow) (args : Namespace) (img : image) :
  shape (frame_of P args img) = [height img; width img].
Proof. reflexivity. Qed.

(** C10: the resolved geometry (tile width and height, tile counts,
    padding amounts, font size) is the same for any two runs whose images
    have the same size and whose sizing arguments agree, whatever the
    pixel values, the contrast multiplier and the contrast enhancer. *)
Theorem geometry_ignores_pixels (P1 P2 : Pillow) (args1 args2 : Namespace)
    (img1 img2 : image) :
  width img1 = width img2 ->
  height img1 = height img2 ->
  sizing_arguments args1 = sizing_arguments args2 ->
  run_geometry P1 args1 img1 = run_geometry P2 args2 img2.
Proof.
  intros Hw Hh Ha. unfold run_geometry, resolved, resolve.
  assert (Hd : use_tile_dimensions args1 = use_tile_dimensions args2)
    by (unfold sizing_arguments in Ha; congruence).
  rewrite <- Hd, <- Hw, <- Hh.
  destruct (use_tile_dimensions args1).
  - rewrite !resolve_tile_dimensions_raises. reflexivity.
  - pose proof (resolve_tile_counts_shape args1 args2
                  (Z.of_nat (width img1)) (Z.of_nat (height img1))
                  (frame_of P1 args1 img1) (frame_of P2 args2 img2) Ha) as H.
    rewrite !frame_of_shape, <- Hw, <- Hh in H. specialize (H eq_refl).
    destruct (resolve_tile_counts args1 _ _ _) as [[g1 fr1]|e1],
             (resolve_tile_counts args2 _ _ _) as [[g2 fr2]|e2];
      cbn in H |- *; inversion H; subst; reflexivity.
Qed.

Lemma geometry_ignores_pixels_witness :
  run_geometry block_font (tile_count_args 7 None None "#") (flat_image 10 10 x00) =
  run_geometry block_font (tile_count_args 7 None None " +") (flat_image 10 10 xff).
Proof.
  apply (geometry_ignores_pixels block_font block_font
           (tile_count_args 7 None None "#") (tile_count_args 7 None None " +")
           (flat_image 10 10 x00) (flat_image 10 10 xff));
    reflexivity.
Defined.

(** ** Lists and array views *)

Section ListFacts.

Context {A : Type}.

Lemma nth_map_seq (f : nat -> A) (d : A) (n s i : nat) :
  (i < n)%nat -> nth i (map f (seq s n)) d = f (s + i)%nat.
Proof.
  revert s i. induction n as [|n IH]; intros s i Hi; [lia|].
  destruct i as [|i]; cbn.
  - f_equal. lia.
  - rewrite IH by lia. f_equal. lia.
Qed.

Lemma flat_map_seq_length (f : nat -> list A) (m n s : nat) :
  (forall k, (s <= k < s + n)%nat -> length (f k) = m) ->
  length (flat_map f (seq s n)) = (n * m)%nat.
Proof.
  revert s. induction n as [|n IH]; intros s Hf; [reflexivity|].
  cbn. rewrite length_app, Hf, IH by (try intros k Hk; try apply Hf; lia).
  reflexivity.
Qed.

Lemma nth_flat_map_seq (f : nat -> list A) (m : nat) (d : A) (n s i j : nat) :
  (forall k, (s <= k < s + n)%nat -> length (f k) = m) ->
  (i < n)%nat -> (j < m)%nat ->
  nth (i * m + j) (flat_map f (seq s n)) d = nth j (f (s + i)%nat) d.
Proof.
  revert s i. induction n as [|n IH]; intros s i Hf Hi Hj; [lia|].
  cbn [seq flat_map]. destruct i as [|i].
  - rewrite app_nth1 by (rewrite Hf; lia). cbn. f_equal. f_equal. lia.
  - rewrite app_nth2 by (rewrite Hf; nia).
    rewrite Hf by lia.
    replace (S i * m + j - m)%nat with (i * m + j)%nat by lia.
    rewrite IH by (try intros k Hk; try apply Hf; lia).
    f_equal. f_equal. lia.
Qed.

Lemma map_nth_seq (l : list A) (d : A) :
  map (fun i => nth i l d) (seq 0 (length l)) = l.
Proof.
  induction l as [|x l IH]; [reflexivity|].
  cbn. f_equal. rewrite <- seq_shift, map_map. exact IH.
Qed.

End ListFacts.

Lemma flat_map_singleton {A B} (f : A -> B) (l : list A) :
  flat_map (fun x => [f x]) l = map f l.
Proof. induction l; cbn; congruence. Qed.

Lemma offsets_1d (w s off : nat) :
  offsets [w] [s] off = map (fun c => (off + c * s)%nat) (seq 0 w).
Proof. cbn. apply flat_map_singleton. Qed.

Lemma offsets_2d (h w s0 s1 off : nat) :
  offsets [h; w] [s0; s1] off =
  flat_map (fun r => map (fun c => (off + r * s0 + c * s1)%nat) (seq 0 w)) (seq 0 h).
Proof.
  cbn [offsets]. apply flat_map_ext. intros r. apply flat_map_singleton.
Qed.

Lemma offsets_2d_length (h w s0 s1 off : nat) :
  length (offsets [h; w] [s0; s1] off) = (h * w)%nat.
Proof.
  rewrite offsets_2d. apply flat_map_seq_length.
  intros. now rewrite length_map, length_seq.
Qed.

Section Views.

Context {A : Type} (d : A).

(** A 2-d view read in C order: position [r * w + c] holds [a[r, c]]. *)
Lemma elements_2d_nth (a : ndarray A) (h w s0 s1 r c : nat) :
  shape a = [h; w] -> strides a = [s0; s1] ->
  (r < h)%nat -> (c < w)%nat ->
  nth (r * w + c) (elements d a) d = item d a [r; c].
Proof.
  intros Hs Hst Hr Hc. unfold elements, item. rewrite Hs, Hst, offsets_2d.
  rewrite <- (map_nth_seq
                (flat_map (fun r0 => map (fun c0 => (offset a + r0 * s0 + c0 * s1)%nat)
                                         (seq 0 w)) (seq 0 h)) 0%nat) at 1.
  rewrite map_map.
  rewrite (flat_map_seq_length _ w) by (intros; now rewrite length_map, length_seq).
  rewrite nth_map_seq by nia. cbn [Nat.add].
  rewrite (nth_flat_map_seq _ w) by (try (intros; now rewrite length_map, length_seq); lia).
  rewrite nth_map_seq by lia. cbn [dot Nat.add]. f_equal. lia.
Qed.

Lemma elements_2d_length (a : ndarray A) (h w : nat) :
  shape a = [h; w] -> length (strides a) = 2%nat ->
  length (elements d a) = (h * w)%nat.
Proof.
  intros Hs Hst. unfold elements. rewrite length_map, Hs.
  destruct (strides a) as [|s0 [|s1 [|? ?]]]; try discriminate.
  apply offsets_2d_length.
Qed.

End Views.

(** ** Tiling *)

Lemma resolve_shape_of_nat (sh : list nat) (n : nat) :
  prod sh = n -> resolve_shape n (map Z.of_nat sh) = Ok sh.
Proof.
  intros Hn. unfold resolve_shape.
  assert (Hf : filter (fun d => d <? 0) (map Z.of_nat sh) = []).
  { clear Hn. induction sh as [|x sh IH]; [reflexivity|]. cbn.
    destruct (Z.ltb_spec (Z.of_nat x) 0); [lia|]. apply IH. }
  assert (Hp : zprod (map Z.of_nat sh) = Z.of_nat (prod sh)).
  { clear Hn Hf. unfold zprod, prod.
    induction sh as [|x sh IH]; [reflexivity|].
    cbn [map fold_right]. rewrite IH. lia. }
  rewrite Hf, Hp, Hn, Z.eqb_refl. f_equal.
  rewrite map_map. rewrite <- (map_id sh) at 2. apply map_ext. intros. apply Nat2Z.id.
Qed.

Lemma floordiv_of_nat_mul (q b : nat) :
  (1 <= b)%nat ->
  floordiv (Z.of_nat (q * b)) (Z.of_nat b) = Ok (Z.of_nat q).
Proof.
  intros Hb. unfold floordiv.
  destruct (Z.eqb_spec (Z.of_nat b) 0); [lia|].
  rewrite Nat2Z.inj_mul, Z.div_mul by lia. reflexivity.
Qed.

(** What [to_tiles] returns on a frame of [v * th] rows and [hc * tw]
    columns: a view of the frame's elements with the two middle axes of the
    reshaped array exchanged. *)
Lemma to_tiles_view (frame : ndarray byte) (v hc th tw : nat) :
  (1 <= th)%nat -> (1 <= tw)%nat ->
  shape frame = [(v * th)%nat; (hc * tw)%nat] ->
  to_tiles frame (Z.of_nat tw) (Z.of_nat th) =
  Ok (NdArray [v; hc; th; tw]
              [(th * (hc * (tw * 1)))%nat; (tw * 1)%nat; (hc * (tw * 1))%nat; 1%nat]
              0%nat (elements x00 frame)).
Proof.
  intros Hth Htw Hs. unfold to_tiles, frame_tile_counts. rewrite Hs.
  rewrite !floordiv_of_nat_mul by assumption. cbn [bind].
  unfold reshape.
  change [Z.of_nat v; Z.of_nat th; Z.of_nat hc; Z.of_nat tw]
    with (map Z.of_nat [v; th; hc; tw]).
  rewrite resolve_shape_of_nat by (unfold size; rewrite Hs; cbn; lia).
  reflexivity.
Qed.

(** The tile reached by iterating a 4-d view twice. *)
Lemma tile_at_view (v hc th tw s0 s1 s2 s3 off : nat) (data : list byte)
    (i j : nat) :
  (i < v)%nat -> (j < hc)%nat ->
  tile_at (NdArray [v; hc; th; tw] [s0; s1; s2; s3] off data) i j =
  NdArray [th; tw] [s2; s3] (off + i * s0 + j * s1)%nat data.
Proof.
  intros Hi Hj. unfold tile_at, subarrays at 2. cbn [shape strides offset buf].
  rewrite nth_map_seq by assumption.
  unfold subarrays. cbn [shape strides offset buf].
  rewrite nth_map_seq by assumption. reflexivity.
Qed.

(** C4: on a frame whose height and width are exact multiples [v * th] and
    [hc * tw] of the tile height and width, [to_tiles] returns a
    [v x hc] grid of [th x tw] tiles; iterating it yields the rows top to
    bottom and, within a row, the tiles left to right, and the tile at
    [(i, j)] is the block of the frame at rows [i*th .. (i+1)*th - 1] and
    columns [j*tw .. (j+1)*tw - 1]. *)
Theorem to_tiles_row_major (frame : ndarray byte) (v hc th tw : nat) :
  (1 <= th)%nat -> (1 <= tw)%nat ->
  shape frame = [(v * th)%nat; (hc * tw)%nat] ->
  length (strides frame) = 2%nat ->
  exists tiles,
    to_tiles frame (Z.of_nat tw) (Z.of_nat th) = Ok tiles /\
    shape tiles = [v; hc; th; tw] /\
    length (subarrays tiles) = v /\
    forall i, (i < v)%nat ->
      length (subarrays (nth i (subarrays tiles) (contiguous [] []))) = hc /\
      forall j, (j < hc)%nat ->
        shape (tile_at tiles i j) = [th; tw] /\
        length (strides (tile_at tiles i j)) = 2%nat /\
        forall a b, (a < th)%nat -> (b < tw)%nat ->
          item x00 (tile_at tiles i j) [a; b] =
            item x00 frame [(i * th + a)%nat; (j * tw + b)%nat] /\
          item x00 tiles [i; j; a; b] =
            item x00 frame [(i * th + a)%nat; (j * tw + b)%nat].
Proof.
  intros Hth Htw Hs Hst.
  destruct (strides frame) as [|s0 [|s1 [|? ?]]] eqn:Est; try discriminate.
  eexists. split; [apply to_tiles_view; eassumption|].
  split; [reflexivity|].
  split; [cbn; now rewrite length_map, length_seq|].
  intros i Hi.
  split; [unfold subarrays at 2; cbn [shape strides offset buf];
          rewrite nth_map_seq by assumption; cbn;
          now rewrite length_map, length_seq|].
  intros j Hj. rewrite tile_at_view by assumption.
  cbn [shape strides]. split; [reflexivity|]. split; [reflexivity|].
  intros a b Ha Hb.
  rewrite <- (elements_2d_nth x00 frame (v * th) (hc * tw) s0 s1) by (auto; nia).
  unfold item. cbn [shape strides offset buf dot].
  split; f_equal; lia.
Qed.

Lemma to_tiles_row_major_witness :
  exists tiles,
    to_tiles (frame_of block_font (tile_count_args 3 (Some 2) (Some 16) "#")
                       (flat_image 6 4 x00)) (Z.of_nat 2) (Z.of_nat 2) = Ok tiles /\
    shape tiles = [2; 3; 2; 2]%nat /\
    length (subarrays tiles) = 2%nat /\
    forall i, (i < 2)%nat ->
      length (subarrays (nth i (subarrays tiles) (contiguous [] []))) = 3%nat /\
      forall j, (j < 3)%nat ->
        shape (tile_at tiles i j) = [2; 2]%nat /\
        length (strides (tile_at tiles i j)) = 2%nat /\
        forall a b, (a < 2)%nat -> (b < 2)%nat ->
          item x00 (tile_at tiles i j) [a; b] =
            item x00 (frame_of block_font (tile_count_args 3 (Some 2) (Some 16) "#")
                               (flat_image 6 4 x00))
                 [(i * 2 + a)%nat; (j * 2 + b)%nat] /\
          item x00 tiles [i; j; a; b] =
            item x00 (frame_of block_font (tile_count_args 3 (Some 2) (Some 16) "#")
                               (flat_image 6 4 x00))
                 [(i * 2 + a)%nat; (j * 2 + b)%nat].
Proof.
  apply (to_tiles_row_major
           (frame_of block_font (tile_count_args 3 (Some 2) (Some 16) "#")
                     (flat_image 6 4 x00)) 2 3 2 2);
    try reflexivity; lia.
Defined.

(** ** Matching *)

(** *** C-ordered arrays *)

Lemma flat_map_seq_blocks (off m n s : nat) :
  flat_map (fun i => seq (off + i * m) m) (seq s n) = seq (off + s * m) (n * m).
Proof.
  revert s. induction n as [|n IH]; intros s; [reflexivity|].
  cbn [seq flat_map]. rewrite IH.
  replace (S n * m)%nat with (m + n * m)%nat by lia.
  rewrite seq_app. do 2 f_equal. lia.
Qed.

Lemma offsets_contiguous (sh : list nat) (off : nat) :
  offsets sh (c_strides sh) off = seq off (prod sh).
Proof.
  revert off. induction sh as [|n sh IH]; intros off; [reflexivity|].
  cbn [offsets c_strides].
  rewrite (flat_map_ext _ (fun i => seq (off + i * prod sh) (prod sh)))
    by (intros; apply IH).
  rewrite flat_map_seq_blocks. cbn [prod fold_right]. f_equal. lia.
Qed.

Lemma elements_contiguous {A} (d : A) (sh : list nat) (data : list A) :
  length data = prod sh -> elements d (contiguous sh data) = data.
Proof.
  intros Hl. unfold elements, contiguous. cbn [shape strides offset buf].
  rewrite offsets_contiguous, <- Hl. apply map_nth_seq.
Qed.

Lemma elements_map_array {A B} (f : A -> B) (d : A) (a : ndarray A) :
  elements (f d) (map_array f a) = map f (elements d a).
Proof.
  unfold elements, map_array. cbn [shape strides offset buf].
  rewrite map_map. apply map_ext. intros o. apply map_nth.
Qed.

(** *** Lists in blocks *)

Lemma map2_length {X Y W} (f : X -> Y -> W) (l1 : list X) (l2 : list Y) :
  length l1 = length l2 -> length (map2 f l1 l2) = length l1.
Proof.
  revert l2. induction l1 as [|x l1 IH]; intros [|y l2] H; try discriminate;
    cbn; [reflexivity|]. f_equal. apply IH. now injection H.
Qed.

Lemma map2_app {X Y W} (f : X -> Y -> W) (l1 l1' : list X) (l2 l2' : list Y) :
  length l1 = length l2 ->
  map2 f (l1 ++ l1') (l2 ++ l2') = map2 f l1 l2 ++ map2 f l1' l2'.
Proof.
  revert l2. induction l1 as [|x l1 IH]; intros [|y l2] H; try discriminate;
    cbn; [reflexivity|]. f_equal. apply IH. now injection H.
Qed.

Lemma map2_combine {X Y W} (f : X -> Y -> W) (l1 : list X) (l2 : list Y) :
  map2 f l1 l2 = map (fun p => f (fst p) (snd p)) (combine l1 l2).
Proof.
  revert l2. induction l1 as [|x l1 IH]; intros [|y l2]; cbn; try reflexivity.
  f_equal. apply IH.
Qed.

Lemma map2_blocks {X Y W G} (f : X -> Y -> W) (blk : G -> list X) (t : list Y)
    (l : list G) (s : nat) :
  (forall g, In g l -> length (blk g) = length t) ->
  map2 f (flat_map blk l) (flat_map (fun _ => t) (seq s (length l))) =
  flat_map (fun g => map2 f (blk g) t) l.
Proof.
  revert s. induction l as [|g l IH]; intros s Hl; [reflexivity|].
  cbn [flat_map length seq].
  rewrite map2_app by (apply Hl; now left).
  f_equal. apply IH. intros g' Hg'. apply Hl. now right.
Qed.

Lemma map_flat_map {X Y W} (f : Y -> W) (blk : X -> list Y) (l : list X) :
  map f (flat_map blk l) = flat_map (fun x => map f (blk x)) l.
Proof.
  induction l as [|x l IH]; [reflexivity|]. cbn. now rewrite map_app, IH.
Qed.

Lemma flat_map_of_map {X Y W} (f : Y -> list W) (g : X -> Y) (l : list X) :
  flat_map f (map g l) = flat_map (fun x => f (g x)) l.
Proof. induction l as [|x l IH]; [reflexivity|]. cbn. now rewrite IH. Qed.

Lemma flat_map_by_index {X Y} (blk : X -> list Y) (d : X) (l : list X) :
  flat_map blk l = flat_map (fun i => blk (nth i l d)) (seq 0 (length l)).
Proof.
  induction l as [|x l IH]; [reflexivity|].
  cbn [flat_map length seq nth]. f_equal.
  rewrite <- seq_shift, flat_map_of_map. exact IH.
Qed.

Lemma map_by_index {X Y} (f : X -> Y) (d : X) (l : list X) :
  map f l = map (fun i => f (nth i l d)) (seq 0 (length l)).
Proof.
  rewrite <- (map_nth_seq l d) at 1. now rewrite map_map.
Qed.

Lemma map_seq_from {Y} (f : nat -> Y) (a n : nat) :
  map (fun i => f (a + i)%nat) (seq 0 n) = map f (seq a n).
Proof.
  revert a. induction n as [|n IH]; intros a; [reflexivity|].
  cbn [seq map]. f_equal; [f_equal; lia|].
  rewrite <- seq_shift, map_map.
  rewrite <- (IH (S a)). apply map_ext. intros i. f_equal. lia.
Qed.

Lemma flat_map_rows {Y} (f : nat -> Y) (w n s : nat) :
  flat_map (fun r => map (fun c => f (r * w + c)%nat) (seq 0 w)) (seq s n) =
  map f (seq (s * w) (n * w)).
Proof.
  revert s. induction n as [|n IH]; intros s; [reflexivity|].
  cbn [seq flat_map]. rewrite IH.
  replace (S n * w)%nat with (w + n * w)%nat by lia.
  rewrite seq_app, map_app. f_equal.
  - apply map_seq_from.
  - do 2 f_equal. lia.
Qed.

(** Block [i] of a list made of blocks of length [m]. *)
Lemma block_by_index {X} (blk : X -> list Z) (d : X) (l : list X) (m i : nat) :
  (forall g, In g l -> length (blk g) = m) ->
  (i < length l)%nat ->
  map (fun p => nth (i * m + p) (flat_map blk l) 0) (seq 0 m) = blk (nth i l d).
Proof.
  intros Hl Hi.
  rewrite <- (map_nth_seq (blk (nth i l d)) 0) at 1.
  rewrite (Hl (nth i l d)) by (apply nth_In; assumption).
  apply map_ext_in. intros p Hp. apply in_seq in Hp.
  rewrite (flat_map_by_index blk d l).
  rewrite (nth_flat_map_seq _ m); try lia; [reflexivity|].
  intros k Hk. apply Hl, nth_In. lia.
Qed.

Lemma flat_map_length_blocks {X Y} (blk : X -> list Y) (m : nat) (l : list X) :
  (forall g, In g l -> length (blk g) = m) ->
  length (flat_map blk l) = (length l * m)%nat.
Proof.
  induction l as [|x l IH]; intros Hl; [reflexivity|].
  cbn. rewrite length_app, Hl, IH by (try intros g Hg; try apply Hl; cbn; auto).
  reflexivity.
Qed.

(** *** The first minimum *)

Lemma argmin_from_first_minimum (rest pre : list Z) (best : Z) (besti : nat) :
  first_minimum pre besti -> nth besti pre 0 = best ->
  first_minimum (pre ++ rest) (argmin_from best besti (length pre) rest).
Proof.
  revert pre best besti. induction rest as [|x rest IH]; intros pre best besti Hm Hb.
  - cbn. now rewrite app_nil_r.
  - cbn [argmin_from]. destruct Hm as (Hi & Hle & Hlt).
    replace (pre ++ x :: rest) with ((pre ++ [x]) ++ rest)
      by (now rewrite <- app_assoc).
    replace (S (length pre)) with (length (pre ++ [x]))
      by (rewrite length_app; cbn; lia).
    destruct (Z.ltb_spec x best) as [Hx|Hx]; apply IH.
    + repeat split.
      * rewrite length_app. cbn. lia.
      * intros j Hj. rewrite length_app in Hj. cbn in Hj.
        rewrite (app_nth2 pre [x]) by lia. rewrite Nat.sub_diag. cbn [nth].
        destruct (Nat.eq_dec j (length pre)) as [->|Hne].
        -- rewrite app_nth2 by lia. rewrite Nat.sub_diag. cbn. lia.
        -- rewrite app_nth1 by lia. specialize (Hle j ltac:(lia)). lia.
      * intros j Hj. rewrite (app_nth2 pre [x]) by lia.
        rewrite Nat.sub_diag. cbn [nth]. rewrite app_nth1 by lia.
        specialize (Hle j ltac:(lia)). lia.
    + rewrite app_nth2 by lia. now rewrite Nat.sub_diag.
    + repeat split.
      * rewrite length_app. cbn. lia.
      * intros j Hj. rewrite length_app in Hj. cbn in Hj.
        rewrite (app_nth1 pre [x] 0 Hi).
        destruct (Nat.eq_dec j (length pre)) as [->|Hne].
        -- rewrite app_nth2 by lia. rewrite Nat.sub_diag. cbn. lia.
        -- rewrite app_nth1 by lia. apply Hle. lia.
      * intros j Hj. rewrite (app_nth1 pre [x] 0 Hi).
        rewrite app_nth1 by lia. now apply Hlt.
    + now rewrite app_nth1.
Qed.

Lemma first_argmin_first_minimum (l : list Z) :
  l <> [] -> first_minimum l (first_argmin l).
Proof.
  destruct l as [|x rest]; [congruence|]. intros _.
  apply (argmin_from_first_minimum rest [x] x 0%nat); [|reflexivity].
  repeat split; cbn; try lia.
  intros j Hj. replace j with 0%nat by lia. lia.
Qed.

Lemma first_minimum_unique (l : list Z) (i j : nat) :
  first_minimum l i -> first_minimum l j -> i = j.
Proof.
  intros (Hi & Hile & Hilt) (Hj & Hjle & Hjlt).
  destruct (Nat.lt_trichotomy i j) as [H|[H|H]]; [|assumption|].
  - specialize (Hjlt i H). specialize (Hile j Hj). lia.
  - specialize (Hilt j H). specialize (Hjle i Hi). lia.
Qed.

(** *** Fixed-width arithmetic on samples *)

Lemma wrap_small (bits z : Z) :
  1 <= bits -> - 2 ^ (bits - 1) <= z < 2 ^ (bits - 1) -> wrap bits z = z.
Proof.
  intros Hb Hz. unfold wrap.
  assert (H2 : 2 ^ bits = 2 * 2 ^ (bits - 1)).
  { replace bits with (1 + (bits - 1)) at 1 by lia.
    rewrite Z.pow_add_r by lia. reflexivity. }
  rewrite Z.mod_small by lia. lia.
Qed.

Lemma int16_of_uint8_range (b : byte) : 0 <= int16_of_uint8 b <= 255.
Proof.
  unfold int16_of_uint8. pose proof (Byte.to_N_bounded b). lia.
Qed.

Lemma samples_range (a : ndarray byte) :
  Forall (fun x => 0 <= x <= 255) (samples a).
Proof.
  unfold samples. apply Forall_forall. intros x Hx.
  apply in_map_iff in Hx. destruct Hx as (b & <- & _).
  apply int16_of_uint8_range.
Qed.

Lemma l1_distance_bounds (g t : list Z) :
  Forall (fun x => 0 <= x <= 255) g -> Forall (fun x => 0 <= x <= 255) t ->
  0 <= l1_distance g t <= 255 * Z.of_nat (length g).
Proof.
  unfold l1_distance. intros Hg. revert t.
  induction Hg as [|x g Hx Hg IH]; intros t Ht; [cbn; lia|].
  destruct Ht as [|y t Hy Ht]; [cbn [combine map zsum fold_right length]; lia|].
  specialize (IH t Ht). cbn [combine map zsum fold_right length fst snd] in *.
  unfold zsum in IH. lia.
Qed.

(** On uint8 samples no step of the computation wraps around: the int16
    difference and absolute value are exact, and so is the int64 sum as
    long as 255 times the number of samples fits. *)
Lemma glyph_sum_l1_distance (g t : list Z) :
  Forall (fun x => 0 <= x <= 255) g -> Forall (fun x => 0 <= x <= 255) t ->
  255 * Z.of_nat (length g) < 2 ^ 63 ->
  glyph_sum g t = l1_distance g t.
Proof.
  intros Hg Ht Hn. unfold glyph_sum.
  assert (He : map (fun x => wrap 16 (Z.abs x))
                   (map2 (fun x y => wrap 16 (x - y)) g t) =
               map (fun p => Z.abs (fst p - snd p)) (combine g t)).
  { clear Hn. revert t Ht.
    induction Hg as [|x g Hx Hg IH]; intros t Ht; [reflexivity|].
    destruct Ht as [|y t Hy Ht]; [reflexivity|].
    cbn [map2 combine map fst snd]. rewrite IH by assumption. f_equal.
    rewrite (wrap_small 16 (x - y)) by (cbn; lia).
    apply wrap_small; cbn; lia. }
  rewrite He. fold (l1_distance g t).
  pose proof (l1_distance_bounds g t Hg Ht).
  apply wrap_small; [lia|]. change (2 ^ (64 - 1)) with (2 ^ 63). lia.
Qed.

Lemma l1_distance_zero_iff (g t : list Z) :
  length g = length t -> (l1_distance g t = 0 <-> g = t).
Proof.
  unfold l1_distance. revert t.
  induction g as [|x g IH]; intros [|y t] Hl; try discriminate.
  - cbn. tauto.
  - injection Hl as Hl. specialize (IH t Hl).
    cbn [combine map zsum fold_right fst snd] in *.
    assert (Hnn : 0 <= fold_right Z.add 0 (map (fun p => Z.abs (fst p - snd p)) (combine g t))).
    { clear. revert t. induction g as [|a g IHg]; intros [|b t]; cbn; try lia.
      specialize (IHg t). lia. }
    unfold zsum in IH. split.
    + intros H. assert (x = y) by lia.
      assert (g = t) by (apply IH; lia). congruence.
    + intros H. injection H as -> ->.
      assert (fold_right Z.add 0 (map (fun p => Z.abs (fst p - snd p)) (combine t t)) = 0)
        by (now apply IH).
      lia.
Qed.

(** *** The array operations of [closest_char] *)

Lemma samples_length (a : ndarray byte) (th tw : nat) :
  shape a = [th; tw] -> length (strides a) = 2%nat ->
  length (samples a) = (th * tw)%nat.
Proof.
  intros Hs Hst. unfold samples. rewrite length_map.
  now apply elements_2d_length.
Qed.

(** The glyphs stacked into one int16 array of shape [(k, th, tw)]. *)
Lemma array_int16_stack (glyphs : list (ndarray byte)) (th tw : nat) :
  glyphs <> [] ->
  (forall g, In g glyphs -> shape g = [th; tw]) ->
  array_int16 glyphs =
  Ok (contiguous [length glyphs; th; tw] (flat_map samples glyphs)).
Proof.
  intros Hne Hsh. unfold array_int16.
  destruct glyphs as [|g0 rest] eqn:E; [congruence|]. rewrite <- E in *.
  assert (Hall : forallb (fun g' => if list_eq_dec Nat.eq_dec (shape g') (shape g0)
                                    then true else false) glyphs = true).
  { apply forallb_forall. intros g Hg.
    destruct (list_eq_dec Nat.eq_dec (shape g) (shape g0)) as [|Hn]; [reflexivity|].
    exfalso. apply Hn. rewrite (Hsh g Hg), (Hsh g0); [reflexivity|].
    rewrite E. now left. }
  rewrite Hall, (Hsh g0) by (rewrite E; now left). reflexivity.
Qed.

Lemma broadcast_shapes_stack (k th tw : nat) :
  broadcast_shapes [k; th; tw] [th; tw] = Ok [k; th; tw].
Proof.
  unfold broadcast_shapes. cbn [rev app broadcast_rev bind].
  rewrite !Nat.eqb_refl. reflexivity.
Qed.

(** The stacked glyphs minus the tile, stretched along the first axis:
    block by block, glyph minus tile. *)
Lemma subtract_int16_stack (glyphs : list (ndarray byte)) (tile : ndarray byte)
    (th tw : nat) :
  (forall g, In g glyphs -> shape g = [th; tw] /\ length (strides g) = 2%nat) ->
  shape tile = [th; tw] -> length (strides tile) = 2%nat ->
  subtract_int16 (contiguous [length glyphs; th; tw] (flat_map samples glyphs))
                 (map_array int16_of_uint8 tile) =
  Ok (contiguous [length glyphs; th; tw]
        (flat_map (fun g => map2 (fun x y => wrap 16 (x - y)) (samples g) (samples tile))
                  glyphs)).
Proof.
  intros Hg Hs Hst. unfold subtract_int16.
  cbn [shape contiguous map_array]. rewrite Hs, broadcast_shapes_stack.
  cbn [bind]. do 2 f_equal.
  assert (Hl : length (flat_map samples glyphs) = prod [length glyphs; th; tw]).
  { rewrite (flat_map_length_blocks samples (th * tw)).
    - cbn. lia.
    - intros g Hin. destruct (Hg g Hin). now apply samples_length. }
  assert (E1 : elements 0 (broadcast_to
                 (contiguous [length glyphs; th; tw] (flat_map samples glyphs))
                 [length glyphs; th; tw]) = flat_map samples glyphs).
  { unfold broadcast_to, contiguous.
    cbn [shape strides offset buf rev app c_strides stretch_rev].
    rewrite !Nat.eqb_refl. cbn [rev app].
    apply (elements_contiguous 0 [length glyphs; th; tw]). exact Hl. }
  rewrite E1.
  destruct (strides tile) as [|s0 [|s1 [|? ?]]] eqn:Est; try discriminate.
  assert (E2 : elements 0 (broadcast_to (map_array int16_of_uint8 tile)
                                         [length glyphs; th; tw]) =
               flat_map (fun _ => samples tile) (seq 0 (length glyphs))).
  { unfold broadcast_to, elements, map_array.
    rewrite Hs, Est. cbn [shape strides offset buf rev app stretch_rev].
    rewrite !Nat.eqb_refl. cbn [rev app offsets].
    rewrite map_flat_map. apply flat_map_ext. intros i.
    unfold samples, elements. rewrite Hs, Est. cbn [offsets].
    rewrite Nat.mul_0_r, Nat.add_0_r, map_map, !map_flat_map.
    apply flat_map_ext. intros r. rewrite !map_flat_map.
    apply flat_map_ext. intros c. cbn [map]. f_equal.
    change 0 with (int16_of_uint8 x00). apply map_nth. }
  rewrite E2. apply map2_blocks.
  intros g Hin. destruct (Hg g Hin).
  rewrite (samples_length g th tw), (samples_length tile th tw); auto.
  now rewrite Est.
Qed.

(** Summing a C-ordered [(k, th, tw)] array over its last two axes sums
    each of its [k] blocks. *)
Lemma sum_axes_1_2_blocks {X} (blk : X -> list Z) (d : X) (l : list X) (th tw : nat) :
  (forall g, In g l -> length (blk g) = (th * tw)%nat) ->
  sum_axes_1_2 (contiguous [length l; th; tw] (flat_map blk l)) =
  Ok (contiguous [length l] (map (fun g => wrap 64 (zsum (blk g))) l)).
Proof.
  intros Hl. unfold sum_axes_1_2. cbn [shape contiguous].
  fold (contiguous [length l; th; tw] (flat_map blk l)).
  rewrite elements_contiguous
    by (rewrite (flat_map_length_blocks blk (th * tw)) by assumption; cbn; lia).
  do 2 f_equal. cbn [prod fold_right seq map].
  rewrite flat_map_singleton, (map_by_index _ d l).
  apply map_ext_in. intros i Hi. apply in_seq in Hi. do 2 f_equal.
  rewrite <- (block_by_index blk d l (th * tw) i) by (auto; lia).
  pose proof (flat_map_rows (fun p => nth (i * (th * tw) + p) (flat_map blk l) 0)
                tw th 0) as Hr.
  rewrite Nat.mul_0_l in Hr. rewrite <- Hr.
  apply flat_map_ext. intros r. apply map_ext. intros c. f_equal. lia.
Qed.

Lemma argmin_contiguous (data : list Z) :
  data <> [] ->
  argmin (contiguous [length data] data) = Ok (first_argmin data).
Proof.
  intros Hne. unfold argmin.
  rewrite elements_contiguous by (cbn; lia).
  destruct data; [congruence|reflexivity].
Qed.

(** The sums [closest_char] takes the [argmin] of: one per glyph. *)
Lemma glyph_sums (glyphs : list (ndarray byte)) (tile : ndarray byte) (th tw : nat) :
  glyphs <> [] ->
  (forall g, In g glyphs -> shape g = [th; tw] /\ length (strides g) = 2%nat) ->
  shape tile = [th; tw] -> length (strides tile) = 2%nat ->
  exists diff,
    subtract_int16 (contiguous [length glyphs; th; tw] (flat_map samples glyphs))
                   (map_array int16_of_uint8 tile) = Ok diff /\
    sum_axes_1_2 (abs_int16 diff) =
    Ok (contiguous [length glyphs]
          (map (fun g => glyph_sum (samples g) (samples tile)) glyphs)).
Proof.
  intros Hne Hg Hs Hst.
  eexists. split; [apply (subtract_int16_stack glyphs tile th tw); assumption|].
  assert (Hlen : forall g, In g glyphs ->
            length (map2 (fun x y => wrap 16 (x - y)) (samples g) (samples tile))
            = (th * tw)%nat).
  { intros g Hin. destruct (Hg g Hin).
    rewrite map2_length; rewrite (samples_length g th tw); auto.
    now rewrite (samples_length tile th tw). }
  unfold abs_int16. cbn [shape contiguous].
  fold (contiguous [length glyphs; th; tw]
          (flat_map (fun g => map2 (fun x y => wrap 16 (x - y)) (samples g) (samples tile))
                    glyphs)).
  rewrite elements_contiguous
    by (rewrite (flat_map_length_blocks _ (th * tw)) by assumption; cbn; lia).
  rewrite map_flat_map.
  fold (contiguous [length glyphs; th; tw]
          (flat_map (fun g => map (fun x => wrap 16 (Z.abs x))
                                  (map2 (fun x y => wrap 16 (x - y)) (samples g) (samples tile)))
                    glyphs)).
  destruct glyphs as [|g0 rest] eqn:E; [congruence|]. rewrite <- E in *.
  rewrite (sum_axes_1_2_blocks _ g0 glyphs th tw)
    by (intros g Hin; rewrite length_map; now apply Hlen).
  reflexivity.
Qed.

(** [closest_char] in one equation: the character at the first minimum of
    the per-glyph sums. *)
Lemma closest_char_first_argmin (char_set : string) (glyphs : list (ndarray byte))
    (tile : ndarray byte) (th tw : nat) :
  glyphs <> [] ->
  (forall g, In g glyphs -> shape g = [th; tw] /\ length (strides g) = 2%nat) ->
  shape tile = [th; tw] -> length (strides tile) = 2%nat ->
  closest_char char_set
    (contiguous [length glyphs; th; tw] (flat_map samples glyphs)) tile =
  match String.get
          (first_argmin (map (fun g => glyph_sum (samples g) (samples tile)) glyphs))
          char_set with
  | Some c => Ok c
  | None => Raise IndexError
  end.
Proof.
  intros Hne Hg Hs Hst.
  destruct (glyph_sums glyphs tile th tw Hne Hg Hs Hst) as (diff & Hd & Hsum).
  unfold closest_char. rewrite Hd. cbn [bind]. rewrite Hsum. cbn [bind].
  rewrite <- (length_map (fun g => glyph_sum (samples g) (samples tile)) glyphs) at 1.
  rewrite argmin_contiguous by (destruct glyphs; [congruence|discriminate]).
  reflexivity.
Qed.

(** Under the int64 bound the sums are the L1 distances. *)
Lemma glyph_sums_l1 (glyphs : list (ndarray byte)) (tile : ndarray byte) (th tw : nat) :
  (forall g, In g glyphs -> shape g = [th; tw] /\ length (strides g) = 2%nat) ->
  255 * Z.of_nat (th * tw) < 2 ^ 63 ->
  map (fun g => glyph_sum (samples g) (samples tile)) glyphs =
  map (fun g => l1_distance (samples g) (samples tile)) glyphs.
Proof.
  intros Hg Hb. apply map_ext_in. intros g Hin. destruct (Hg g Hin).
  apply glyph_sum_l1_distance; try apply samples_range.
  now rewrite (samples_length g th tw).
Qed.

Lemma string_get_in_range (s : string) (i : nat) :
  (i < String.length s)%nat -> exists c, String.get i s = Some c.
Proof.
  revert i. induction s as [|a s IH]; intros i Hi; [cbn in Hi; lia|].
  destruct i as [|i]; cbn; [eauto|]. apply IH. cbn in Hi. lia.
Qed.

Lemma nth_map_in_range {X} (f : X -> Z) (l : list X) (d : X) (j : nat) :
  (j < length l)%nat -> nth j (map f l) 0 = f (nth j l d).
Proof.
  intros Hj. rewrite (nth_indep (map f l) 0 (f d)) by (now rewrite length_map).
  apply map_nth.
Qed.

(** C1: for every tile and every non-empty character set, [closest_char]
    returns the character at the least index, in character-set order,
    whose glyph minimizes the L1 distance (the sum of the absolute
    pixel-wise differences over the flattened matrices) to the tile; in
    particular, of two characters with pixel-identical glyphs the later
    one is never the one chosen.  Glyphs and tile are uint8 arrays of one
    shape, small enough for the sum of their differences to fit the int64
    accumulator. *)
Theorem closest_char_least_index_of_minimum (char_set : string)
    (glyphs : list (ndarray byte)) (tile : ndarray byte) (th tw : nat) :
  char_set <> EmptyString ->
  length glyphs = String.length char_set ->
  (forall g, In g glyphs -> shape g = [th; tw] /\ length (strides g) = 2%nat) ->
  shape tile = [th; tw] -> length (strides tile) = 2%nat ->
  255 * Z.of_nat (th * tw) < 2 ^ 63 ->
  exists char_glyphs i c,
    array_int16 glyphs = Ok char_glyphs /\
    closest_char char_set char_glyphs tile = Ok c /\
    String.get i char_set = Some c /\
    first_minimum
      (map (fun g => l1_distance (samples g) (samples tile)) glyphs) i /\
    forall j1 j2 d, (j1 < j2 < length glyphs)%nat ->
      samples (nth j1 glyphs d) = samples (nth j2 glyphs d) -> i <> j2.
Proof.
  intros Hcs Hlen Hg Hs Hst Hb.
  assert (Hne : glyphs <> []).
  { destruct glyphs; [|discriminate]. destruct char_set; [congruence|discriminate]. }
  set (dists := map (fun g => l1_distance (samples g) (samples tile)) glyphs).
  assert (Hmin : first_minimum dists (first_argmin dists)).
  { apply first_argmin_first_minimum. unfold dists.
    destruct glyphs; [congruence|discriminate]. }
  destruct (string_get_in_range char_set (first_argmin dists)) as (c & Hc).
  { destruct Hmin as (Hi & _).
    assert (length dists = length glyphs) by apply length_map. lia. }
  exists (contiguous [length glyphs; th; tw] (flat_map samples glyphs)),
         (first_argmin dists), c.
  split; [apply array_int16_stack; [assumption|intros g Hin; apply Hg, Hin]|].
  split.
  { rewrite (closest_char_first_argmin char_set glyphs tile th tw) by assumption.
    rewrite (glyph_sums_l1 glyphs tile th tw) by assumption.
    fold dists. now rewrite Hc. }
  split; [exact Hc|]. split; [exact Hmin|].
  intros j1 j2 d Hj Heq Hi.
  destruct Hmin as (_ & _ & Hlt). rewrite Hi in Hlt.
  specialize (Hlt j1 ltac:(lia)). unfold dists in Hlt.
  rewrite !(nth_map_in_range _ glyphs d) in Hlt by lia.
  rewrite Heq in Hlt. lia.
Qed.

Lemma closest_char_least_index_of_minimum_witness :
  exists char_glyphs i c,
    array_int16 [tabulate 2 2 (fun _ _ => x00);
                 tabulate 2 2 (fun _ _ => xff);
                 tabulate 2 2 (fun r k => if Nat.eqb r k then xff else x00)]
      = Ok char_glyphs /\
    closest_char " #+" char_glyphs diagonal_tile = Ok c /\
    String.get i " #+" = Some c /\
    first_minimum
      (map (fun g => l1_distance (samples g) (samples diagonal_tile))
           [tabulate 2 2 (fun _ _ => x00);
            tabulate 2 2 (fun _ _ => xff);
            tabulate 2 2 (fun r k => if Nat.eqb r k then xff else x00)]) i /\
    forall j1 j2 d,
      (j1 < j2 < length [tabulate 2 2 (fun _ _ => x00);
                         tabulate 2 2 (fun _ _ => xff);
                         tabulate 2 2 (fun r k => if Nat.eqb r k then xff else x00)])%nat ->
      samples (nth j1 [tabulate 2 2 (fun _ _ => x00);
                       tabulate 2 2 (fun _ _ => xff);
                       tabulate 2 2 (fun r k => if Nat.eqb r k then xff else x00)] d)
      = samples (nth j2 [tabulate 2 2 (fun _ _ => x00);
                         tabulate 2 2 (fun _ _ => xff);
                         tabulate 2 2 (fun r k => if Nat.eqb r k then xff else x00)] d) ->
      i <> j2.
Proof.
  apply (closest_char_least_index_of_minimum " #+"
           [tabulate 2 2 (fun _ _ => x00);
            tabulate 2 2 (fun _ _ => xff);
            tabulate 2 2 (fun r k => if Nat.eqb r k then xff else x00)]
           diagonal_tile 2 2).
  - discriminate.
  - reflexivity.
  - intros g [<-|[<-|[<-|[]]]]; split; reflexivity.
  - reflexivity.
  - reflexivity.
  - reflexivity.
Defined.

(** C8, as stated, fails: under a font that draws both [' '] and ['.'] as
    blank ink, a tile identical to the glyph of ['.'] is matched to [' '],
    the earlier of the two characters. *)
Lemma identical_glyphs_select_the_earlier :
  exists glyphs char_glyphs,
    block_glyphs " ." 2 2 = Ok glyphs /\
    array_int16 glyphs = Ok char_glyphs /\
    String.get 1 " ." = Some "."%char /\
    samples blank_tile = samples (nth 1 glyphs blank_tile) /\
    closest_char " ." char_glyphs blank_tile = Ok " "%char /\
    closest_char " ." char_glyphs blank_tile <> Ok "."%char.
Proof.
  eexists. eexists.
  split; [vm_compute; reflexivity|].
  split; [vm_compute; reflexivity|].
  split; [reflexivity|].
  split; [vm_compute; reflexivity|].
  match goal with
  | |- ?x = _ /\ _ =>
      assert (H : x = Ok " "%char) by (vm_compute; reflexivity)
  end.
  split; [exact H|]. rewrite H. discriminate.
Qed.

(** C8, amended: for the character at index [i] of the character set and
    a tile pixel-identical to its glyph, the matcher computes the sum 0
    for that glyph and selects the first character, in character-set
    order, whose glyph is pixel-identical to the tile; that character is
    the one at [i] whenever no earlier glyph is pixel-identical to the
    tile. *)
Theorem own_glyph_matches_first_identical (char_set : string)
    (glyphs : list (ndarray byte)) (tile : ndarray byte) (th tw i : nat)
    (d : ndarray byte) :
  length glyphs = String.length char_set ->
  (forall g, In g glyphs -> shape g = [th; tw] /\ length (strides g) = 2%nat) ->
  shape tile = [th; tw] -> length (strides tile) = 2%nat ->
  255 * Z.of_nat (th * tw) < 2 ^ 63 ->
  (i < length glyphs)%nat ->
  samples tile = samples (nth i glyphs d) ->
  exists char_glyphs diff sums i0 c,
    array_int16 glyphs = Ok char_glyphs /\
    subtract_int16 char_glyphs (map_array int16_of_uint8 tile) = Ok diff /\
    sum_axes_1_2 (abs_int16 diff) = Ok sums /\
    nth i (elements 0 sums) 1 = 0 /\
    closest_char char_set char_glyphs tile = Ok c /\
    String.get i0 char_set = Some c /\
    (i0 <= i)%nat /\
    samples (nth i0 glyphs d) = samples tile /\
    (forall j, (j < i0)%nat -> samples (nth j glyphs d) <> samples tile) /\
    ((forall j, (j < i)%nat -> samples (nth j glyphs d) <> samples tile) -> i0 = i).
Proof.
  intros Hlen Hg Hs Hst Hb Hi Hsame.
  assert (Hne : glyphs <> []) by (destruct glyphs; [cbn in Hi; lia|discriminate]).
  destruct (glyph_sums glyphs tile th tw Hne Hg Hs Hst) as (diff & Hd & Hsum).
  set (dists := map (fun g => l1_distance (samples g) (samples tile)) glyphs).
  assert (Hdl : length dists = length glyphs) by apply length_map.
  assert (Hdist : forall j, (j < length glyphs)%nat ->
            nth j dists 0 = l1_distance (samples (nth j glyphs d)) (samples tile)).
  { intros j Hj.
    exact (nth_map_in_range (fun g => l1_distance (samples g) (samples tile))
                            glyphs d j Hj). }
  assert (Hsl : forall j, (j < length glyphs)%nat ->
            length (samples (nth j glyphs d)) = length (samples tile)).
  { intros j Hj. destruct (Hg (nth j glyphs d)) as [? ?]; [now apply nth_In|].
    rewrite (samples_length _ th tw), (samples_length tile th tw); auto. }
  assert (Hnn : forall j, (j < length glyphs)%nat -> 0 <= nth j dists 0).
  { intros j Hj. rewrite Hdist by assumption.
    apply l1_distance_bounds; apply samples_range. }
  assert (Hz : nth i dists 0 = 0).
  { rewrite Hdist by assumption. apply l1_distance_zero_iff; [now apply Hsl|].
    now symmetry. }
  assert (Hmin : first_minimum dists (first_argmin dists)).
  { apply first_argmin_first_minimum. destruct dists; [cbn in Hdl; lia|discriminate]. }
  destruct Hmin as (Hi0 & Hle & Hlt).
  set (i0 := first_argmin dists) in *.
  assert (Hz0 : nth i0 dists 0 = 0).
  { specialize (Hle i ltac:(lia)). specialize (Hnn i0 ltac:(lia)). lia. }
  destruct (string_get_in_range char_set i0) as (c & Hc); [lia|].
  exists (contiguous [length glyphs; th; tw] (flat_map samples glyphs)), diff,
         (contiguous [length glyphs]
            (map (fun g => glyph_sum (samples g) (samples tile)) glyphs)), i0, c.
  split; [apply array_int16_stack; [assumption|intros g Hin; apply Hg, Hin]|].
  split; [exact Hd|]. split; [exact Hsum|].
  split.
  { rewrite elements_contiguous by (cbn; rewrite length_map; lia).
    rewrite (glyph_sums_l1 glyphs tile th tw) by assumption. fold dists.
    rewrite (nth_indep dists 1 0) by lia. exact Hz. }
  split.
  { rewrite (closest_char_first_argmin char_set glyphs tile th tw) by assumption.
    rewrite (glyph_sums_l1 glyphs tile th tw) by assumption.
    fold dists. fold i0. now rewrite Hc. }
  split; [exact Hc|].
  assert (Hle0 : (i0 <= i)%nat).
  { destruct (Nat.le_gt_cases i0 i) as [|Hgt]; [assumption|].
    specialize (Hlt i Hgt). lia. }
  split; [exact Hle0|].
  assert (Hs0 : samples (nth i0 glyphs d) = samples tile).
  { apply l1_distance_zero_iff; [apply Hsl; lia|].
    rewrite <- Hdist by lia. exact Hz0. }
  split; [exact Hs0|].
  assert (Hearlier : forall j, (j < i0)%nat -> samples (nth j glyphs d) <> samples tile).
  { intros j Hj Heq. specialize (Hlt j Hj).
    rewrite (Hdist j) in Hlt by lia.
    assert (l1_distance (samples (nth j glyphs d)) (samples tile) = 0)
      by (apply l1_distance_zero_iff; [apply Hsl; lia|assumption]).
    lia. }
  split; [exact Hearlier|].
  intros Hfirst. destruct (Nat.eq_dec i0 i) as [|Hne']; [assumption|].
  exfalso. apply (Hfirst i0); [lia|exact Hs0].
Qed.

Lemma own_glyph_matches_first_identical_witness :
  exists char_glyphs diff sums i0 c,
    array_int16 [blank_tile; blank_tile] = Ok char_glyphs /\
    subtract_int16 char_glyphs (map_array int16_of_uint8 blank_tile) = Ok diff /\
    sum_axes_1_2 (abs_int16 diff) = Ok sums /\
    nth 1 (elements 0 sums) 1 = 0 /\
    closest_char " ." char_glyphs blank_tile = Ok c /\
    String.get i0 " ." = Some c /\
    (i0 <= 1)%nat /\
    samples (nth i0 [blank_tile; blank_tile] blank_tile) = samples blank_tile /\
    (forall j, (j < i0)%nat ->
       samples (nth j [blank_tile; blank_tile] blank_tile) <> samples blank_tile) /\
    ((forall j, (j < 1)%nat ->
        samples (nth j [blank_tile; blank_tile] blank_tile) <> samples blank_tile) ->
     i0 = 1%nat).
Proof.
  apply (own_glyph_matches_first_identical " ." [blank_tile; blank_tile]
           blank_tile 2 2 1 blank_tile).
  - reflexivity.
  - intros g [<-|[<-|[]]]; split; reflexivity.
  - reflexivity.
  - reflexivity.
  - reflexivity.
  - cbn. lia.
  - reflexivity.
Defined.

(** ** The whole run *)

(** In tile-count mode, with a non-empty image and positive tile counts
    [n] across and [v] down, the padded frame splits into a [v x n] grid
    of tiles of the resolved, positive size. *)
Lemma resolved_tile_grid (P : Pillow) (args : Namespace) (img : image)
    (n v : Z) (g : geometry) (frame : ndarray byte) :
  use_tile_dimensions args = false ->
  (1 <= width img)%nat -> (1 <= height img)%nat ->
  tile_counts args (Z.of_nat (width img)) (Z.of_nat (height img)) = Ok (n, v) ->
  1 <= n -> 1 <= v ->
  resolved P args img = Ok (g, frame) ->
  exists tw th,
    (1 <= tw)%nat /\ (1 <= th)%nat /\
    tile_width g = Z.of_nat tw /\ tile_height g = Z.of_nat th /\
    to_tiles frame (tile_width g) (tile_height g) =
    Ok (NdArray [Z.to_nat v; Z.to_nat n; th; tw]
                [(th * (Z.to_nat n * (tw * 1)))%nat; (tw * 1)%nat;
                 (Z.to_nat n * (tw * 1))%nat; 1%nat]
                0%nat (elements x00 frame)).
Proof.
  intros Hd Hw Hh Hc Hn Hv Hr. unfold resolved, resolve in Hr. rewrite Hd in Hr.
  apply resolve_tile_counts_inv in Hr.
  destruct Hr as (n' & v' & Hc' & Hdim & _ & Hpad).
  rewrite Hc in Hc'. inversion Hc'; subst n' v'. clear Hc'.
  rewrite tile_dimensions_spread in Hdim by assumption.
  injection Hdim as Htw Hth Hhp Hvp.
  set (w := Z.of_nat (width img)) in *. set (h := Z.of_nat (height img)) in *.
  pose proof (ceiling_quotient w n Hn) as [Cw1 Cw2].
  pose proof (ceiling_quotient h v Hv) as [Ch1 Ch2].
  rewrite Htw in Cw1, Cw2, Hhp. rewrite Hth in Ch1, Ch2, Hvp.
  destruct (pad_with_shape (frame_of P args img) (height img) (width img)
              (h_padding g) (v_padding g))
    as (a' & Hp & Hsh & _); try reflexivity; try assumption; try lia.
  rewrite Hpad in Hp. inversion Hp; subst a'. clear Hp.
  assert (Htwp : 1 <= tile_width g) by nia.
  assert (Hthp : 1 <= tile_height g) by nia.
  exists (Z.to_nat (tile_width g)), (Z.to_nat (tile_height g)).
  split; [lia|]. split; [lia|].
  split; [now rewrite Z2Nat.id by lia|]. split; [now rewrite Z2Nat.id by lia|].
  pose proof (to_tiles_view frame (Z.to_nat v) (Z.to_nat n)
                (Z.to_nat (tile_height g)) (Z.to_nat (tile_width g))) as Ht.
  rewrite !Z2Nat.id in Ht by lia. apply Ht; try lia.
  rewrite Hsh. f_equal; [|f_equal].
  - rewrite <- Z2Nat.inj_mul by lia. f_equal. fold h. lia.
  - rewrite <- Z2Nat.inj_mul by lia. f_equal. fold w. lia.
Qed.

(** With no glyphs at all the subtraction cannot broadcast the tile
    against an array of shape [(0,)], unless the tile is one pixel wide;
    then the sum over axes 1 and 2 of a 2-d array fails. *)
Lemma closest_char_no_glyphs (char_set : string) (tile : ndarray byte) (th tw : nat) :
  shape tile = [th; tw] -> (1 <= tw)%nat ->
  closest_char char_set (contiguous [0%nat] []) tile =
  Raise (if (tw =? 1)%nat then AxisError else ValueError).
Proof.
  intros Hs Htw. unfold closest_char, subtract_int16.
  cbn [shape contiguous map_array]. rewrite Hs.
  unfold broadcast_shapes. cbn [rev app broadcast_rev bind].
  destruct (Nat.eqb_spec 0 tw) as [|_]; [lia|]. cbn [Nat.eqb].
  destruct (Nat.eqb_spec tw 1) as [->|Hne]; reflexivity.
Qed.

Lemma mapM_raises_at_head {A B} (f : A -> result B) (x : A) (l : list A) (e : exn) :
  f x = Raise e -> mapM f (x :: l) = Raise e.
Proof. intros H. cbn. now rewrite H. Qed.

Lemma seq_positive (n : nat) :
  (1 <= n)%nat -> seq 0 n = 0%nat :: seq 1 (n - 1).
Proof. destruct n; [lia|]. intros _. cbn. now rewrite Nat.sub_0_r. Qed.

(** C7, as stated, fails: a run with an empty character set ends with
    numpy's ValueError, raised when the first tile is matched; no
    EmptyCharacterSet error exists. *)
Lemma empty_character_set_raises_value_error :
  main block_font (tile_count_args 3 (Some 2) (Some 16) "") (flat_image 6 4 x00)
    = {| stdout := []; outcome := Raise ValueError |} /\
  outcome (main block_font (tile_count_args 3 (Some 2) (Some 16) "")
                (flat_image 6 4 x00))
    <> Raise EmptyCharacterSet.
Proof.
  assert (H : main block_font (tile_count_args 3 (Some 2) (Some 16) "")
                   (flat_image 6 4 x00)
              = {| stdout := []; outcome := Raise ValueError |})
    by (vm_compute; reflexivity).
  split; [exact H|]. rewrite H. discriminate.
Qed.

(** C7, amended: a run in tile-count mode with an empty character set, on
    a non-empty image with positive tile counts, whose geometry resolves
    and whose font loads, fails while matching its first tile, before
    anything is printed: with numpy's ValueError (the tile cannot be
    broadcast against the empty glyph array) or, for tiles one pixel
    wide, its AxisError.  The exception is not caught, so it ends the
    run; it is not an EmptyCharacterSet error. *)
Theorem empty_character_set_fails_in_matcher (P : Pillow) (args : Namespace)
    (img : image) (n v : Z) (g : geometry) (frame : ndarray byte)
    (f : FreeTypeFont P) :
  use_tile_dimensions args = false ->
  char_set args = EmptyString ->
  (1 <= width img)%nat -> (1 <= height img)%nat ->
  tile_counts args (Z.of_nat (width img)) (Z.of_nat (height img)) = Ok (n, v) ->
  1 <= n -> 1 <= v ->
  resolved P args img = Ok (g, frame) ->
  truetype P (font args) (font_size g) = Ok f ->
  main P args img =
    {| stdout := [];
       outcome := Raise (if tile_width g =? 1 then AxisError else ValueError) |} /\
  outcome (main P args img) <> Raise EmptyCharacterSet.
Proof.
  intros Hd Hcs Hw Hh Hc Hn Hv Hr Hf.
  destruct (resolved_tile_grid P args img n v g frame Hd Hw Hh Hc Hn Hv Hr)
    as (tw & th & Htw & Hth & Etw & Eth & Ht).
  assert (Hm : main P args img =
    {| stdout := [];
       outcome := Raise (if tile_width g =? 1 then AxisError else ValueError) |}).
  { unfold main, prepare. rewrite Hr. cbn [bind]. rewrite Hf. cbn [bind].
    rewrite Hcs. cbn [list_ascii_of_string mapM bind array_int16].
    rewrite Ht. cbn [bind].
    unfold subarrays at 1. cbn [shape strides offset buf].
    rewrite (seq_positive (Z.to_nat v)) by lia. cbn [map print_rows].
    unfold subarrays at 1. cbn [shape strides offset buf].
    rewrite (seq_positive (Z.to_nat n)) by lia. cbn [map].
    rewrite (mapM_raises_at_head _ _ _
               (if (tw =? 1)%nat then AxisError else ValueError))
      by (apply (closest_char_no_glyphs _ _ th tw); [reflexivity|assumption]).
    rewrite Etw. do 2 f_equal.
    destruct (Nat.eqb_spec tw 1) as [->|Hne]; [reflexivity|].
    destruct (Z.eqb_spec (Z.of_nat tw) 1); [lia|reflexivity]. }
  split; [exact Hm|]. rewrite Hm. cbn [outcome].
  destruct (tile_width g =? 1); discriminate.
Qed.

Lemma empty_character_set_fails_in_matcher_witness :
  main block_font (tile_count_args 6 (Some 2) (Some 16) "") (flat_image 6 4 x00) =
    {| stdout := [];
       outcome := Raise (if 1 =? 1 then AxisError else ValueError) |} /\
  outcome (main block_font (tile_count_args 6 (Some 2) (Some 16) "")
                (flat_image 6 4 x00))
    <> Raise EmptyCharacterSet.
Proof.
  apply (empty_character_set_fails_in_matcher block_font
           (tile_count_args 6 (Some 2) (Some 16) "") (flat_image 6 4 x00) 6 2
           (Build_geometry 1 2 16 0 0)
           (tabulate 4 6 (fun _ _ => x00)) 16);
    try reflexivity; cbn; lia.
Defined.

(** *** A single pixel *)

Lemma tile_dimensions_single_pixel (n v : Z) :
  1 <= n -> 1 <= v ->
  tile_dimensions 1 1 n v = Ok (1, 1, n - 1, v - 1).
Proof.
  intros Hn Hv. rewrite tile_dimensions_spread by assumption.
  replace (1 + n - 1) with n by lia. replace (1 + v - 1) with v by lia.
  rewrite !Z.div_same by lia. do 2 f_equal; [do 2 f_equal|]; lia.
Qed.

(** Edge padding of a single pixel: every cell of the padded frame is that
    pixel. *)
Lemma pad_with_single_pixel (p : byte) (hp vp : Z) :
  0 <= hp -> 0 <= vp ->
  pad_with (tabulate 1 1 (fun _ _ => p)) hp vp =
  Ok (contiguous [Z.to_nat (vp + 1); Z.to_nat (hp + 1)]
        (flat_map (fun _ => map (fun _ => p) (seq 0 (Z.to_nat (hp + 1))))
                  (seq 0 (Z.to_nat (vp + 1))))).
Proof.
  intros Hhp Hvp. unfold pad_with, pad_edge, tabulate. cbn [shape contiguous].
  assert (0 <= hp / 2 <= hp) by (split; [apply Z.div_pos; lia | apply Z.div_le_upper_bound; lia]).
  assert (0 <= vp / 2 <= vp) by (split; [apply Z.div_pos; lia | apply Z.div_le_upper_bound; lia]).
  replace (vp / 2 <? 0) with false by (symmetry; apply Z.ltb_ge; lia).
  replace (vp - vp / 2 <? 0) with false by (symmetry; apply Z.ltb_ge; lia).
  replace (hp / 2 <? 0) with false by (symmetry; apply Z.ltb_ge; lia).
  replace (hp - hp / 2 <? 0) with false by (symmetry; apply Z.ltb_ge; lia).
  cbn [orb andb Nat.eqb].
  replace (Z.to_nat (vp / 2) + 1 + Z.to_nat (vp - vp / 2))%nat
    with (Z.to_nat (vp + 1)) by lia.
  replace (Z.to_nat (hp / 2) + 1 + Z.to_nat (hp - hp / 2))%nat
    with (Z.to_nat (hp + 1)) by lia.
  do 2 f_equal. apply flat_map_ext. intros r. apply map_ext. intros c.
  unfold item. cbn [Nat.sub]. rewrite !Nat.min_0_r. reflexivity.
Qed.

Lemma round_half_is_zero : (q <- int_truediv 1 2 ;; round q) = Ok 0.
Proof. vm_compute. reflexivity. Qed.

Lemma mapM_map {A B} (f : A -> result B) (g : A -> B) (l : list A) :
  (forall x, In x l -> f x = Ok (g x)) -> mapM f l = Ok (map g l).
Proof.
  induction l as [|x l IH]; intros H; [reflexivity|].
  cbn. rewrite (H x) by now left. cbn [bind].
  rewrite IH by (intros y Hy; apply H; now right). reflexivity.
Qed.

Lemma map_constant {A B} (c : B) (f : A -> B) (l : list A) :
  (forall x, In x l -> f x = c) -> map f l = repeat c (length l).
Proof.
  induction l as [|x l IH]; intros H; [reflexivity|].
  cbn. rewrite (H x) by now left. f_equal. apply IH. intros y Hy. apply H. now right.
Qed.

Lemma print_rows_uniform (char_set : string) (char_glyphs : ndarray Z)
    (line : list ascii) (rows : list (ndarray byte)) (printed : list string) :
  (forall row, In row rows ->
     mapM (closest_char char_set char_glyphs) (subarrays row) = Ok line) ->
  print_rows char_set char_glyphs rows printed =
  {| stdout := printed ++ repeat (string_of_list_ascii line) (length rows);
     outcome := Ok 0 |}.
Proof.
  revert printed. induction rows as [|row rows IH]; intros printed H.
  - cbn. now rewrite app_nil_r.
  - cbn [print_rows]. rewrite (H row) by now left.
    rewrite IH by (intros r Hr; apply H; now right).
    cbn [length repeat]. now rewrite <- app_assoc.
Qed.

Lemma constant_block_nth {A} (p d : A) (m n i : nat) :
  (i < n * m)%nat ->
  nth i (flat_map (fun _ : nat => map (fun _ : nat => p) (seq 0 m)) (seq 0 n)) d = p.
Proof.
  intros Hi.
  assert (Hall : Forall (fun x => x = p)
            (flat_map (fun _ : nat => map (fun _ : nat => p) (seq 0 m)) (seq 0 n))).
  { apply Forall_forall. intros x Hx. apply in_flat_map in Hx.
    destruct Hx as (r & _ & Hx). apply in_map_iff in Hx.
    destruct Hx as (c & Hx & _). now symmetry. }
  rewrite Forall_forall in Hall. apply Hall, nth_In.
  rewrite (flat_map_seq_length _ m) by (intros; now rewrite length_map, length_seq).
  exact Hi.
Qed.

Lemma list_ascii_length (s : string) :
  length (list_ascii_of_string s) = String.length s.
Proof. induction s; cbn; congruence. Qed.

Lemma string_get_in (s : string) (i : nat) (c : ascii) :
  String.get i s = Some c -> In c (list_ascii_of_string s).
Proof.
  revert i. induction s as [|a s IH]; intros i H; [discriminate|].
  destruct i as [|i]; cbn in H |- *.
  - left. congruence.
  - right. eapply IH, H.
Qed.

Lemma to_char_glyph_single_pixel (P : Pillow) (f : FreeTypeFont P) (c : ascii) :
  to_char_glyph P f 1 1 c = Ok (tabulate 1 1 (draw_text P f 1 1 (0, 0) c)).
Proof.
  unfold to_char_glyph. cbn [Z.ltb Z.compare orb].
  rewrite round_half_is_zero. reflexivity.
Qed.

(** The samples of a one-pixel view into a buffer. *)
Lemma samples_single_pixel (s0 s1 off : nat) (data : list byte) :
  samples (NdArray [1; 1]%nat [s0; s1] off data) =
  [int16_of_uint8 (nth off data x00)].
Proof.
  unfold samples, elements. cbn [shape strides offset buf offsets flat_map seq app map].
  now rewrite !Nat.mul_0_l, !Nat.add_0_r.
Qed.

(** C9, as stated, fails: a 1x1 image asked for 2 tiles across and 1 down
    gives two output characters, not one; and asked for 1 tile across with
    the vertical count left to be derived, the run fails, since the
    derived count rounds to 0. *)
Lemma single_pixel_gives_more_than_one_character :
  main block_font (tile_count_args 2 (Some 1) (Some 16) "#") (flat_image 1 1 x80)
    = {| stdout := ["##"%string]; outcome := Ok 0 |} /\
  main block_font (tile_count_args 1 None (Some 16) "#") (flat_image 1 1 x80)
    = {| stdout := []; outcome := Raise ZeroDivisionError |}.
Proof. split; vm_compute; reflexivity. Qed.

(** C9, amended: for every 1x1 image and resolved tile counts [n >= 1]
    across and [v >= 1] down, whenever the font size resolves and the font
    loads and the character set is not empty, the run does not fail:
    padding extends the single pixel over a [v x n] frame, every tile is
    that pixel, and the output is [v] lines of [n] copies of one character
    of the set, which is exactly one character only for [n = v = 1]. *)
Theorem single_pixel_fills_the_grid (P : Pillow) (args : Namespace) (img : image)
    (n v fs : Z) (f : FreeTypeFont P) :
  use_tile_dimensions args = false ->
  width img = 1%nat -> height img = 1%nat ->
  tile_counts args 1 1 = Ok (n, v) -> 1 <= n -> 1 <= v ->
  fitting_font_size args 1 1 = Ok fs ->
  truetype P (font args) fs = Ok f ->
  char_set args <> EmptyString ->
  exists frame c,
    resolved P args img = Ok (Build_geometry 1 1 fs (n - 1) (v - 1), frame) /\
    shape frame = [Z.to_nat v; Z.to_nat n] /\
    Forall (fun b => b = enhance P (contrast args) img 0%nat 0%nat)
           (elements x00 frame) /\
    In c (list_ascii_of_string (char_set args)) /\
    main P args img =
      {| stdout := repeat (string_of_list_ascii (repeat c (Z.to_nat n))) (Z.to_nat v);
         outcome := Ok 0 |}.
Proof.
  intros Hd Hw Hh Hc Hn Hv Hfs Hf Hcs.
  set (p := enhance P (contrast args) img 0%nat 0%nat).
  set (V := Z.to_nat v). set (N := Z.to_nat n).
  set (data := flat_map (fun _ : nat => map (fun _ : nat => p) (seq 0 N)) (seq 0 V)).
  assert (Hdl : length data = (V * N)%nat).
  { unfold data. apply flat_map_seq_length. intros. now rewrite length_map, length_seq. }
  (* geometry and padding *)
  assert (Hr : resolved P args img =
               Ok (Build_geometry 1 1 fs (n - 1) (v - 1), contiguous [V; N] data)).
  { unfold resolved, resolve, resolve_tile_counts. rewrite Hd, Hw, Hh.
    change (Z.of_nat 1) with 1. rewrite Hc. cbn [bind].
    rewrite tile_dimensions_single_pixel by assumption. cbn [bind].
    rewrite Hfs. cbn [bind].
    replace (frame_of P args img) with (tabulate 1 1 (fun _ _ : nat => p))
      by (unfold frame_of; rewrite Hw, Hh; reflexivity).
    rewrite pad_with_single_pixel by lia. cbn [bind].
    replace (Z.to_nat (v - 1 + 1)) with V by (unfold V; f_equal; lia).
    replace (Z.to_nat (n - 1 + 1)) with N by (unfold N; f_equal; lia).
    reflexivity. }
  assert (Hel : elements x00 (contiguous [V; N] data) = data).
  { apply elements_contiguous. rewrite Hdl. cbn. lia. }
  (* glyphs *)
  set (chars := list_ascii_of_string (char_set args)).
  set (glyphs := map (fun c => tabulate 1 1 (draw_text P f 1 1 (0, 0) c)) chars).
  assert (Hchars : chars <> []).
  { unfold chars. destruct (char_set args); [congruence|discriminate]. }
  assert (Hgl : mapM (to_char_glyph P f 1 1) chars = Ok glyphs).
  { apply mapM_map. intros c _. apply to_char_glyph_single_pixel. }
  assert (Hgne : glyphs <> []).
  { unfold glyphs. destruct chars; [congruence|discriminate]. }
  assert (Hgs : forall g, In g glyphs ->
            shape g = [1; 1]%nat /\ length (strides g) = 2%nat).
  { intros g Hg. unfold glyphs in Hg. apply in_map_iff in Hg.
    destruct Hg as (c & <- & _). split; reflexivity. }
  set (char_glyphs := contiguous [length glyphs; 1; 1]%nat (flat_map samples glyphs)).
  assert (Harr : array_int16 glyphs = Ok char_glyphs).
  { apply array_int16_stack; [assumption|]. intros g Hg. apply Hgs, Hg. }
  (* tiles *)
  assert (Ht : to_tiles (contiguous [V; N] data) 1 1 =
               Ok (NdArray [V; N; 1; 1]%nat
                           [(1 * (N * (1 * 1)))%nat; (1 * 1)%nat;
                            (N * (1 * 1))%nat; 1%nat] 0%nat data)).
  { pose proof (to_tiles_view (contiguous [V; N] data) V N 1 1) as H.
    rewrite Hel in H. apply H; try lia. cbn. now rewrite !Nat.mul_1_r. }
  (* the character every tile is matched to *)
  set (sums := map (fun g => glyph_sum (samples g) [int16_of_uint8 p]) glyphs).
  destruct (string_get_in_range (char_set args) (first_argmin sums)) as (c & Hget).
  { assert (Hm : first_minimum sums (first_argmin sums)).
    { apply first_argmin_first_minimum. unfold sums.
      destruct glyphs; [congruence|discriminate]. }
    destruct Hm as (Hi & _). unfold sums in Hi at 2.
    rewrite length_map in Hi. unfold glyphs in Hi. rewrite length_map in Hi.
    unfold chars in Hi. rewrite list_ascii_length in Hi. exact Hi. }
  assert (Htile : forall off s0 s1, (off < V * N)%nat ->
            closest_char (char_set args) char_glyphs
                         (NdArray [1; 1]%nat [s0; s1] off data) = Ok c).
  { intros off s0 s1 Hoff. unfold char_glyphs.
    rewrite (closest_char_first_argmin (char_set args) glyphs _ 1 1)
      by (try assumption; reflexivity).
    rewrite samples_single_pixel.
    unfold data. rewrite constant_block_nth by assumption.
    fold sums. now rewrite Hget. }
  exists (contiguous [V; N] data), c.
  split; [exact Hr|]. split; [reflexivity|].
  split.
  { rewrite Hel. apply Forall_forall. intros x Hx. unfold data in Hx.
    apply in_flat_map in Hx. destruct Hx as (r & _ & Hx).
    apply in_map_iff in Hx. destruct Hx as (k & Hx & _). now symmetry. }
  split; [eapply string_get_in, Hget|].
  unfold main, prepare. rewrite Hr. cbn [bind font_size tile_width tile_height].
  rewrite Hf. cbn [bind]. fold chars. rewrite Hgl. cbn [bind].
  rewrite Harr. cbn [bind]. rewrite Ht. cbn [bind].
  rewrite (print_rows_uniform _ _ (repeat c N)).
  - cbn [app]. unfold subarrays. cbn [shape strides offset buf].
    now rewrite length_map, length_seq.
  - intros row Hrow. unfold subarrays in Hrow at 1.
    cbn [shape strides offset buf] in Hrow.
    apply in_map_iff in Hrow. destruct Hrow as (i & <- & Hi).
    apply in_seq in Hi.
    unfold subarrays. cbn [shape strides offset buf].
    rewrite (mapM_map _ (fun _ => c)).
    + f_equal. rewrite (map_constant c) by reflexivity.
      now rewrite length_map, length_seq.
    + intros tile Htl. apply in_map_iff in Htl.
      destruct Htl as (j & <- & Hj). apply in_seq in Hj.
      apply Htile. nia.
Qed.

Lemma single_pixel_fills_the_grid_witness :
  exists frame c,
    resolved block_font (tile_count_args 5 None None " #") (flat_image 1 1 xc8)
      = Ok (Build_geometry 1 1 0 (5 - 1) (2 - 1), frame) /\
    shape frame = [Z.to_nat 2; Z.to_nat 5] /\
    Forall (fun b => b = enhance block_font
                          (contrast (tile_count_args 5 None None " #"))
                          (flat_image 1 1 xc8) 0%nat 0%nat)
           (elements x00 frame) /\
    In c (list_ascii_of_string (char_set (tile_count_args 5 None None " #"))) /\
    main block_font (tile_count_args 5 None None " #") (flat_image 1 1 xc8) =
      {| stdout := repeat (string_of_list_ascii (repeat c (Z.to_nat 5))) (Z.to_nat 2);
         outcome := Ok 0 |}.
Proof.
  apply (single_pixel_fills_the_grid block_font
           (tile_count_args 5 None None " #") (flat_image 1 1 xc8) 5 2 0 0);
    try reflexivity; try lia; discriminate.
Defined.

(** ** Further properties of the geometry *)

Lemma ceiling_decreases (a b b' t t' : Z) :
  1 <= a -> 1 <= b <= b' ->
  is_ceil_quotient t a b -> is_ceil_quotient t' a b' ->
  1 <= t' <= t.
Proof.
  unfold is_ceil_quotient. intros Ha [Hb Hb'] [A1 A2] [B1 B2].
  assert (1 <= t) by nia. assert (1 <= t') by nia.
  split; [assumption|].
  destruct (Z_le_gt_dec t' t) as [|Hgt]; [assumption|exfalso].
  assert (t * b <= (t' - 1) * b') by nia. lia.
Qed.

(** X1: asking for more tiles never makes a tile larger: for an image of
    positive size, the tile width does not increase with the horizontal
    tile count, nor the tile height with the vertical one. *)
Theorem tile_size_decreases_with_count (w h n n' v v' : Z) :
  1 <= w -> 1 <= h -> 1 <= n <= n' -> 1 <= v <= v' ->
  exists tw th hp vp tw' th' hp' vp',
    tile_dimensions w h n v = Ok (tw, th, hp, vp) /\
    tile_dimensions w h n' v' = Ok (tw', th', hp', vp') /\
    1 <= tw' <= tw /\ 1 <= th' <= th.
Proof.
  intros Hw Hh [Hn Hn'] [Hv Hv'].
  do 8 eexists.
  split; [apply tile_dimensions_spread; lia|].
  split; [apply tile_dimensions_spread; lia|].
  split.
  - apply (ceiling_decreases w n n'); try lia; apply ceiling_quotient; lia.
  - apply (ceiling_decreases h v v'); try lia; apply ceiling_quotient; lia.
Qed.

Lemma tile_size_decreases_with_count_witness :
  exists tw th hp vp tw' th' hp' vp',
    tile_dimensions 100 50 10 5 = Ok (tw, th, hp, vp) /\
    tile_dimensions 100 50 20 5 = Ok (tw', th', hp', vp') /\
    1 <= tw' <= tw /\ 1 <= th' <= th.
Proof.
  apply (tile_size_decreases_with_count 100 50 10 20 5 5); lia.
Defined.

(** X2: with at least as many tiles across as the image has columns, every
    tile is one pixel wide and the image is widened to the tile count by
    padding; likewise down. *)
Theorem more_tiles_than_pixels (w h n v : Z) :
  1 <= w <= n -> 1 <= h <= v ->
  tile_dimensions w h n v = Ok (1, 1, n - w, v - h).
Proof.
  intros [Hw Hn] [Hh Hv]. rewrite tile_dimensions_spread by lia.
  assert (Ew : (w + n - 1) / n = 1)
    by (symmetry; apply Z.div_unique with (r := w - 1); lia).
  assert (Eh : (h + v - 1) / v = 1)
    by (symmetry; apply Z.div_unique with (r := h - 1); lia).
  rewrite Ew, Eh. do 2 f_equal; [do 2 f_equal|]; lia.
Qed.

Lemma more_tiles_than_pixels_witness :
  tile_dimensions 3 2 80 32 = Ok (1, 1, 80 - 3, 32 - 2).
Proof. apply (more_tiles_than_pixels 3 2 80 32); lia. Defined.

(** ** Further properties of padding *)

Lemma pad_with_negative (a : ndarray byte) (hp vp : Z) :
  hp < 0 \/ vp < 0 -> pad_with a hp vp = Raise ValueError.
Proof.
  intros H. unfold pad_with, pad_edge.
  destruct (shape a) as [|h [|w [|? ?]]]; try reflexivity.
  assert (Hn : (vp / 2 <? 0) || (vp - vp / 2 <? 0) || (hp / 2 <? 0)
               || (hp - hp / 2 <? 0) = true).
  { destruct H as [H|H].
    - assert (hp / 2 < 0) by (apply Z.div_lt_upper_bound; lia).
      replace (hp / 2 <? 0) with true by (symmetry; apply Z.ltb_lt; lia).
      now rewrite orb_true_r.
    - assert (vp / 2 < 0) by (apply Z.div_lt_upper_bound; lia).
      replace (vp / 2 <? 0) with true by (symmetry; apply Z.ltb_lt; lia).
      reflexivity. }
  now rewrite Hn.
Qed.

(** X3: [pad_with] refuses a negative padding amount, on either axis, with
    numpy's ValueError. *)
Theorem pad_with_negative_raises (a : ndarray byte) (hp vp : Z) :
  hp < 0 \/ vp < 0 -> pad_with a hp vp = Raise ValueError.
Proof. apply pad_with_negative. Qed.

Lemma pad_with_negative_raises_witness :
  pad_with blank_tile (-1) 0 = Raise ValueError.
Proof. apply (pad_with_negative_raises blank_tile (-1) 0). left. lia. Defined.

Lemma item_contiguous_2d {A} (d : A) (H W r c : nat) (data : list A) :
  item d (contiguous [H; W] data) [r; c] = nth (r * W + c) data d.
Proof.
  unfold item, contiguous. cbn [shape strides offset buf c_strides prod fold_right dot].
  f_equal. lia.
Qed.

(** X4: [pad_with] keeps the array and surrounds it with copies of its
    edge.  The array lands [v_padding // 2] rows down and
    [h_padding // 2] columns right; the bottom and the right take the
    rest of the padding, the same amount or one more; and every cell of
    the result repeats the nearest cell of the array. *)
Theorem pad_with_edge_extends (a : ndarray byte) (h w : nat) (hp vp : Z) :
  shape a = [h; w] -> (1 <= h)%nat -> (1 <= w)%nat -> 0 <= hp -> 0 <= vp ->
  exists a' top bottom left right,
    pad_with a hp vp = Ok a' /\
    Z.of_nat top = vp / 2 /\ Z.of_nat bottom = vp - vp / 2 /\
    Z.of_nat left = hp / 2 /\ Z.of_nat right = hp - hp / 2 /\
    (top <= bottom <= top + 1)%nat /\ (left <= right <= left + 1)%nat /\
    shape a' = [(top + h + bottom)%nat; (left + w + right)%nat] /\
    (forall r c, (r < top + h + bottom)%nat -> (c < left + w + right)%nat ->
       item x00 a' [r; c] = item x00 a [nearest top h r; nearest left w c]) /\
    (forall r c, (r < h)%nat -> (c < w)%nat ->
       item x00 a' [(top + r)%nat; (left + c)%nat] = item x00 a [r; c]).
Proof.
  intros Hs Hh Hw Hhp Hvp.
  assert (Hd1 : 0 <= hp / 2 <= hp)
    by (split; [apply Z.div_pos; lia | apply Z.div_le_upper_bound; lia]).
  assert (Hd2 : 0 <= vp / 2 <= vp)
    by (split; [apply Z.div_pos; lia | apply Z.div_le_upper_bound; lia]).
  pose proof (Z.div_mod hp 2 ltac:(lia)) as Hm1.
  pose proof (Z.mod_pos_bound hp 2 ltac:(lia)) as Hb1.
  pose proof (Z.div_mod vp 2 ltac:(lia)) as Hm2.
  pose proof (Z.mod_pos_bound vp 2 ltac:(lia)) as Hb2.
  set (top := Z.to_nat (vp / 2)). set (bottom := Z.to_nat (vp - vp / 2)).
  set (left := Z.to_nat (hp / 2)). set (right := Z.to_nat (hp - hp / 2)).
  assert (Hp : pad_with a hp vp =
    Ok (contiguous [(top + h + bottom)%nat; (left + w + right)%nat]
          (flat_map (fun r =>
             map (fun c => item x00 a [Nat.min (r - top) (h - 1);
                                       Nat.min (c - left) (w - 1)])
                 (seq 0 (left + w + right)))
             (seq 0 (top + h + bottom))))).
  { unfold pad_with, pad_edge. rewrite Hs.
    replace (vp / 2 <? 0) with false by (symmetry; apply Z.ltb_ge; lia).
    replace (vp - vp / 2 <? 0) with false by (symmetry; apply Z.ltb_ge; lia).
    replace (hp / 2 <? 0) with false by (symmetry; apply Z.ltb_ge; lia).
    replace (hp - hp / 2 <? 0) with false by (symmetry; apply Z.ltb_ge; lia).
    replace (h =? 0)%nat with false by (symmetry; apply Nat.eqb_neq; lia).
    replace (w =? 0)%nat with false by (symmetry; apply Nat.eqb_neq; lia).
    reflexivity. }
  assert (Hitem : forall r c, (r < top + h + bottom)%nat -> (c < left + w + right)%nat ->
    item x00 (contiguous [(top + h + bottom)%nat; (left + w + right)%nat]
          (flat_map (fun r =>
             map (fun c => item x00 a [Nat.min (r - top) (h - 1);
                                       Nat.min (c - left) (w - 1)])
                 (seq 0 (left + w + right)))
             (seq 0 (top + h + bottom)))) [r; c] =
    item x00 a [Nat.min (r - top) (h - 1); Nat.min (c - left) (w - 1)]).
  { intros r c Hr Hc. rewrite item_contiguous_2d.
    rewrite (nth_flat_map_seq _ (left + w + right))
      by (try (intros; now rewrite length_map, length_seq); lia).
    now rewrite nth_map_seq by lia. }
  eexists. exists top, bottom, left, right.
  split; [exact Hp|].
  split; [unfold top; lia|]. split; [unfold bottom; lia|].
  split; [unfold left; lia|]. split; [unfold right; lia|].
  split; [unfold top, bottom; lia|]. split; [unfold left, right; lia|].
  split; [reflexivity|]. split.
  - intros r c Hr Hc. rewrite Hitem by assumption. unfold nearest.
    f_equal. f_equal; [|f_equal].
    + destruct (Nat.ltb_spec r top); [lia|].
      destruct (Nat.leb_spec (top + h) r); lia.
    + destruct (Nat.ltb_spec c left); [lia|].
      destruct (Nat.leb_spec (left + w) c); lia.
  - intros r c Hr Hc. rewrite Hitem by lia.
    f_equal. f_equal; [|f_equal]; lia.
Qed.

Lemma pad_with_edge_extends_witness :
  exists a' top bottom left right,
    pad_with diagonal_tile 3 0 = Ok a' /\
    Z.of_nat top = 0 / 2 /\ Z.of_nat bottom = 0 - 0 / 2 /\
    Z.of_nat left = 3 / 2 /\ Z.of_nat right = 3 - 3 / 2 /\
    (top <= bottom <= top + 1)%nat /\ (left <= right <= left + 1)%nat /\
    shape a' = [(top + 2 + bottom)%nat; (left + 2 + right)%nat] /\
    (forall r c, (r < top + 2 + bottom)%nat -> (c < left + 2 + right)%nat ->
       item x00 a' [r; c] = item x00 diagonal_tile [nearest top 2 r; nearest left 2 c]) /\
    (forall r c, (r < 2)%nat -> (c < 2)%nat ->
       item x00 a' [(top + r)%nat; (left + c)%nat] = item x00 diagonal_tile [r; c]).
Proof.
  apply (pad_with_edge_extends diagonal_tile 2 2 3 0); try reflexivity; lia.
Defined.

(** ** Further properties of tiling *)

(** X5: [to_tiles] enforces what its docstring asks of the caller.  A
    tile dimension of zero raises ZeroDivisionError; and on a non-empty
    frame whose height or width is not a multiple of the (positive) tile
    height or width, the reshape raises ValueError. *)
Theorem to_tiles_rejects_uneven_frame (frame : ndarray byte) (h w : nat)
    (tile_width tile_height : Z) :
  shape frame = [h; w] -> (1 <= h)%nat -> (1 <= w)%nat ->
  (tile_height = 0 \/ tile_width = 0 ->
   to_tiles frame tile_width tile_height = Raise ZeroDivisionError) /\
  (1 <= tile_width -> 1 <= tile_height ->
   Z.of_nat h mod tile_height <> 0 \/ Z.of_nat w mod tile_width <> 0 ->
   to_tiles frame tile_width tile_height = Raise ValueError).
Proof.
  intros Hs Hh Hw. unfold to_tiles, frame_tile_counts, floordiv. rewrite Hs. split.
  - intros [-> | ->]; [reflexivity|].
    destruct (tile_height =? 0); reflexivity.
  - intros Htw Hth Hun.
    destruct (Z.eqb_spec tile_height 0); [lia|].
    destruct (Z.eqb_spec tile_width 0); [lia|]. cbn [bind].
    unfold reshape, resolve_shape. cbn [filter].
    assert (0 <= Z.of_nat h / tile_height) by (apply Z.div_pos; lia).
    assert (0 <= Z.of_nat w / tile_width) by (apply Z.div_pos; lia).
    replace (Z.of_nat h / tile_height <? 0) with false by (symmetry; apply Z.ltb_ge; lia).
    replace (Z.of_nat w / tile_width <? 0) with false by (symmetry; apply Z.ltb_ge; lia).
    replace (tile_height <? 0) with false by (symmetry; apply Z.ltb_ge; lia).
    replace (tile_width <? 0) with false by (symmetry; apply Z.ltb_ge; lia).
    unfold size. rewrite Hs. cbn [zprod prod fold_right].
    pose proof (Z.div_mod (Z.of_nat h) tile_height ltac:(lia)) as Dh.
    pose proof (Z.mod_pos_bound (Z.of_nat h) tile_height ltac:(lia)) as Bh.
    pose proof (Z.div_mod (Z.of_nat w) tile_width ltac:(lia)) as Dw.
    pose proof (Z.mod_pos_bound (Z.of_nat w) tile_width ltac:(lia)) as Bw.
    set (qh := Z.of_nat h / tile_height) in *.
    set (qw := Z.of_nat w / tile_width) in *.
    assert (Hlt : qh * (tile_height * (qw * (tile_width * 1)))
                  < Z.of_nat (h * (w * 1))).
    { rewrite !Nat2Z.inj_mul. change (Z.of_nat 1) with 1.
      assert (0 <= tile_height * qh <= Z.of_nat h) by nia.
      assert (0 <= tile_width * qw <= Z.of_nat w) by nia.
      destruct Hun as [Hun|Hun]; nia. }
    destruct (Z.eqb_spec (qh * (tile_height * (qw * (tile_width * 1))))
                         (Z.of_nat (h * (w * 1)))); [lia|reflexivity].
Qed.

Lemma to_tiles_rejects_uneven_frame_witness :
  to_tiles blank_tile 0 2 = Raise ZeroDivisionError /\
  to_tiles diagonal_tile 3 1 = Raise ValueError.
Proof.
  destruct (to_tiles_rejects_uneven_frame blank_tile 2 2 0 2) as [H0 _];
    try reflexivity; try lia.
  destruct (to_tiles_rejects_uneven_frame diagonal_tile 2 2 3 1) as [_ H1];
    try reflexivity; try lia.
  split; [apply H0; now right|].
  apply H1; try lia. right. cbn. discriminate.
Defined.

(** X6: tiling loses no pixel and moves none: on a frame of [v * th]
    rows and [hc * tw] columns, the pixel at row [r], column [c] is the
    pixel at row [r mod th], column [c mod tw] of the tile in row
    [r / th], column [c / tw] of the grid. *)
Theorem to_tiles_keeps_every_pixel (frame : ndarray byte) (v hc th tw : nat) :
  (1 <= th)%nat -> (1 <= tw)%nat ->
  shape frame = [(v * th)%nat; (hc * tw)%nat] ->
  length (strides frame) = 2%nat ->
  exists tiles,
    to_tiles frame (Z.of_nat tw) (Z.of_nat th) = Ok tiles /\
    forall r c, (r < v * th)%nat -> (c < hc * tw)%nat ->
      (r / th < v)%nat /\ (c / tw < hc)%nat /\
      item x00 frame [r; c] =
      item x00 (tile_at tiles (r / th) (c / tw)) [(r mod th)%nat; (c mod tw)%nat].
Proof.
  intros Hth Htw Hs Hst.
  destruct (strides frame) as [|s0 [|s1 [|? ?]]] eqn:Est; try discriminate.
  eexists. split; [apply to_tiles_view; eassumption|].
  intros r c Hr Hc.
  assert (Hi : (r / th < v)%nat) by (apply Nat.Div0.div_lt_upper_bound; lia).
  assert (Hj : (c / tw < hc)%nat) by (apply Nat.Div0.div_lt_upper_bound; lia).
  split; [exact Hi|]. split; [exact Hj|].
  rewrite tile_at_view by assumption.
  rewrite <- (elements_2d_nth x00 frame (v * th) (hc * tw) s0 s1) by (auto; lia).
  unfold item. cbn [shape strides offset buf dot]. f_equal.
  pose proof (Nat.div_mod_eq r th). pose proof (Nat.div_mod_eq c tw). nia.
Qed.

Lemma to_tiles_keeps_every_pixel_witness :
  exists tiles,
    to_tiles (frame_of block_font (tile_count_args 3 (Some 2) (Some 16) "#")
                       (flat_image 6 4 x00)) (Z.of_nat 2) (Z.of_nat 2) = Ok tiles /\
    forall r c, (r < 2 * 2)%nat -> (c < 3 * 2)%nat ->
      (r / 2 < 2)%nat /\ (c / 2 < 3)%nat /\
      item x00 (frame_of block_font (tile_count_args 3 (Some 2) (Some 16) "#")
                         (flat_image 6 4 x00)) [r; c] =
      item x00 (tile_at tiles (r / 2) (c / 2)) [(r mod 2)%nat; (c mod 2)%nat].
Proof.
  apply (to_tiles_keeps_every_pixel
           (frame_of block_font (tile_count_args 3 (Some 2) (Some 16) "#")
                     (flat_image 6 4 x00)) 2 3 2 2);
    try reflexivity; lia.
Defined.

(** ** Further properties of the glyphs *)

Lemma to_char_glyph_inv (P : Pillow) (f : FreeTypeFont P) (tw th : Z) (c : ascii)
    (g : ndarray byte) :
  to_char_glyph P f tw th c = Ok g ->
  0 <= tw /\ 0 <= th /\
  exists x y,
    g = tabulate (Z.to_nat th) (Z.to_nat tw)
                 (draw_text P f (Z.to_nat tw) (Z.to_nat th) (x, y) c).
Proof.
  unfold to_char_glyph. intros H.
  destruct (Z.ltb_spec tw 0); [discriminate|].
  destruct (Z.ltb_spec th 0); [discriminate|]. cbn [orb] in H.
  destruct (q <- int_truediv tw 2;; round q) as [x|e]; [|discriminate].
  cbn [bind] in H.
  destruct (q <- int_truediv th 2;; round q) as [y|e]; [|discriminate].
  cbn [bind] in H. inversion H. repeat split; try lia. now exists x, y.
Qed.

Lemma tabulate_item {A} (d : A) (h w : nat) (fn : nat -> nat -> A) (r k : nat) :
  (r < h)%nat -> (k < w)%nat -> item d (tabulate h w fn) [r; k] = fn r k.
Proof.
  intros Hr Hk. unfold tabulate. rewrite item_contiguous_2d.
  rewrite (nth_flat_map_seq _ w) by (try (intros; now rewrite length_map, length_seq); lia).
  now rewrite nth_map_seq by lia.
Qed.

Lemma all_from_holds (p : Z -> bool) (count : nat) (t x : Z) :
  all_from p t count = true -> t <= x < t + Z.of_nat count -> p x = true.
Proof.
  revert t. induction count as [|c IH]; intros t H Hx; [lia|].
  cbn [all_from] in H. apply andb_true_iff in H. destruct H as [Ht Hr].
  destruct (Z.eq_dec x t) as [->|Hne]; [assumption|].
  apply (IH (t + 1)); [assumption|lia].
Qed.

Lemma anchor_rounds_below_4096 : all_from anchor_rounds 0 (Z.to_nat 4096) = true.
Proof. vm_compute. reflexivity. Qed.

(** [round(t / 2)] for a tile dimension [t] below 4096. *)
Lemma round_half (t : Z) :
  0 <= t < 4096 -> (q <- int_truediv t 2 ;; round q) = Ok (half_to_even t).
Proof.
  intros Ht.
  pose proof (all_from_holds anchor_rounds (Z.to_nat 4096) 0 t
                anchor_rounds_below_4096 ltac:(lia)) as H.
  unfold anchor_rounds in H.
  destruct (q <- int_truediv t 2 ;; round q) as [x|e]; [|discriminate].
  apply Z.eqb_eq in H. now subst.
Qed.

(** X7: a glyph has exactly the size of a tile.  [to_char_glyph] refuses
    a negative tile width or height with ValueError; for a tile width
    and height from 0 to 4095 it returns a glyph, an array of
    [tile_height] rows and [tile_width] columns holding, cell by cell,
    what the font drew with the text anchored at the middle of the tile,
    [(round(tile_width / 2), round(tile_height / 2))], halves rounded to
    the even neighbour. *)
Theorem to_char_glyph_has_tile_shape (P : Pillow) (f : FreeTypeFont P)
    (tile_width tile_height : Z) (c : ascii) :
  (tile_width < 0 \/ tile_height < 0 ->
   to_char_glyph P f tile_width tile_height c = Raise ValueError) /\
  (0 <= tile_width < 4096 -> 0 <= tile_height < 4096 ->
   exists g,
     to_char_glyph P f tile_width tile_height c = Ok g /\
     shape g = [Z.to_nat tile_height; Z.to_nat tile_width] /\
     length (strides g) = 2%nat /\
     length (samples g) = (Z.to_nat tile_height * Z.to_nat tile_width)%nat /\
     forall r k,
       (r < Z.to_nat tile_height)%nat -> (k < Z.to_nat tile_width)%nat ->
       item x00 g [r; k] =
       draw_text P f (Z.to_nat tile_width) (Z.to_nat tile_height)
                 (half_to_even tile_width, half_to_even tile_height) c r k).
Proof.
  split.
  - intros H. unfold to_char_glyph.
    destruct H as [H|H].
    + replace (tile_width <? 0) with true by (symmetry; apply Z.ltb_lt; lia).
      reflexivity.
    + replace (tile_height <? 0) with true by (symmetry; apply Z.ltb_lt; lia).
      now rewrite orb_true_r.
  - intros Hw Hh. eexists. split.
    + unfold to_char_glyph.
      replace (tile_width <? 0) with false by (symmetry; apply Z.ltb_ge; lia).
      replace (tile_height <? 0) with false by (symmetry; apply Z.ltb_ge; lia).
      cbn [orb]. rewrite (round_half tile_width Hw). cbn [bind].
      rewrite (round_half tile_height Hh). reflexivity.
    + split; [reflexivity|]. split; [reflexivity|].
      split; [now apply samples_length|].
      intros r k Hr Hk. now apply tabulate_item.
Qed.

Lemma to_char_glyph_has_tile_shape_witness :
  to_char_glyph block_font 16 (-1) 2 "#" = Raise ValueError /\
  exists g,
    to_char_glyph block_font 16 3 2 "#" = Ok g /\
    shape g = [Z.to_nat 2; Z.to_nat 3] /\
    length (strides g) = 2%nat /\
    length (samples g) = (Z.to_nat 2 * Z.to_nat 3)%nat /\
    forall r k,
      (r < Z.to_nat 2)%nat -> (k < Z.to_nat 3)%nat ->
      item x00 g [r; k] =
      draw_text block_font 16 (Z.to_nat 3) (Z.to_nat 2)
                (half_to_even 3, half_to_even 2) "#" r k.
Proof.
  split.
  - apply (to_char_glyph_has_tile_shape block_font 16 (-1) 2 "#"). left. lia.
  - apply (to_char_glyph_has_tile_shape block_font 16 3 2 "#"); lia.
Defined.

(** ** Further properties of matching *)

(** X8: matching reads the pixel values of a tile and nothing else: two
    tiles of the glyphs' shape holding the same samples, whatever their
    strides, offsets and buffers, are matched to the same character.  So
    the strided views that [to_tiles] hands out match like copies. *)
Theorem closest_char_reads_samples_only (char_set : string)
    (glyphs : list (ndarray byte)) (tile1 tile2 : ndarray byte) (th tw : nat) :
  glyphs <> [] ->
  (forall g, In g glyphs -> shape g = [th; tw] /\ length (strides g) = 2%nat) ->
  shape tile1 = [th; tw] -> length (strides tile1) = 2%nat ->
  shape tile2 = [th; tw] -> length (strides tile2) = 2%nat ->
  samples tile1 = samples tile2 ->
  exists char_glyphs,
    array_int16 glyphs = Ok char_glyphs /\
    closest_char char_set char_glyphs tile1 =
    closest_char char_set char_glyphs tile2.
Proof.
  intros Hne Hg Hs1 Hst1 Hs2 Hst2 Heq.
  eexists. split; [apply array_int16_stack; [assumption|intros g Hin; apply Hg, Hin]|].
  rewrite !(closest_char_first_argmin char_set glyphs _ th tw) by assumption.
  now rewrite Heq.
Qed.

Lemma closest_char_reads_samples_only_witness :
  exists char_glyphs,
    array_int16 [blank_tile; diagonal_tile] = Ok char_glyphs /\
    closest_char " +" char_glyphs diagonal_tile =
    closest_char " +" char_glyphs
      (NdArray [2; 2]%nat [1; 3]%nat 2%nat [x00; x00; xf0; x10; x00; x10; xf0]).
Proof.
  apply (closest_char_reads_samples_only " +" [blank_tile; diagonal_tile]
           diagonal_tile
           (NdArray [2; 2]%nat [1; 3]%nat 2%nat [x00; x00; xf0; x10; x00; x10; xf0])
           2 2).
  - discriminate.
  - intros g [<-|[<-|[]]]; split; reflexivity.
  - reflexivity.
  - reflexivity.
  - reflexivity.
  - reflexivity.
  - reflexivity.
Defined.

(** The character matched is one of the set, for any tile of the glyphs'
    shape. *)
Lemma closest_char_in_set (char_set : string) (glyphs : list (ndarray byte))
    (tile : ndarray byte) (th tw : nat) :
  glyphs <> [] ->
  length glyphs = String.length char_set ->
  (forall g, In g glyphs -> shape g = [th; tw] /\ length (strides g) = 2%nat) ->
  shape tile = [th; tw] -> length (strides tile) = 2%nat ->
  exists c,
    closest_char char_set
      (contiguous [length glyphs; th; tw] (flat_map samples glyphs)) tile = Ok c /\
    In c (list_ascii_of_string char_set).
Proof.
  intros Hne Hlen Hg Hs Hst.
  set (sums := map (fun g => glyph_sum (samples g) (samples tile)) glyphs).
  assert (Hm : first_minimum sums (first_argmin sums)).
  { apply first_argmin_first_minimum. unfold sums.
    destruct glyphs; [congruence|discriminate]. }
  destruct Hm as (Hi & _).
  assert (Hsl : length sums = length glyphs) by apply length_map.
  destruct (string_get_in_range char_set (first_argmin sums)) as (c & Hc); [lia|].
  exists c. split; [|eapply string_get_in, Hc].
  rewrite (closest_char_first_argmin char_set glyphs tile th tw) by assumption.
  fold sums. now rewrite Hc.
Qed.

(** X9: with a single character in the set, every tile of the glyph's
    shape is matched to that character. *)
Theorem single_character_set_always_matches (c : ascii) (g tile : ndarray byte)
    (th tw : nat) :
  shape g = [th; tw] -> length (strides g) = 2%nat ->
  shape tile = [th; tw] -> length (strides tile) = 2%nat ->
  exists char_glyphs,
    array_int16 [g] = Ok char_glyphs /\
    closest_char (String c EmptyString) char_glyphs tile = Ok c.
Proof.
  intros Hs Hst Hts Htst.
  assert (Hg : forall g', In g' [g] ->
            shape g' = [th; tw] /\ length (strides g') = 2%nat)
    by (intros g' [<-|[]]; now split).
  eexists. split; [apply (array_int16_stack [g] th tw); [discriminate|apply Hg]|].
  rewrite (closest_char_first_argmin _ [g] tile th tw)
    by (try assumption; discriminate).
  reflexivity.
Qed.

Lemma single_character_set_always_matches_witness :
  exists char_glyphs,
    array_int16 [blank_tile] = Ok char_glyphs /\
    closest_char (String "#" EmptyString) char_glyphs diagonal_tile = Ok "#"%char.
Proof.
  apply (single_character_set_always_matches "#" blank_tile diagonal_tile 2 2);
    reflexivity.
Defined.

Lemma l1_distance_to_black (g t : list Z) :
  length g = length t ->
  Forall (fun x => 0 <= x) g -> Forall (fun x => x = 0) t ->
  l1_distance g t = zsum g.
Proof.
  unfold l1_distance, zsum. intros Hl Hg. revert t Hl.
  induction Hg as [|x g Hx Hg IH]; intros [|y t] Hl Ht; try discriminate;
    [reflexivity|].
  inversion Ht; subst. injection Hl as Hl.
  cbn [combine map fold_right fst snd]. rewrite IH by assumption. lia.
Qed.

(** X10: a black tile goes to the glyph with the least ink: when every
    sample of the tile is 0, the character chosen is the first one, in
    character-set order, whose glyph has the least sum of samples. *)
Theorem black_tile_matches_least_ink (char_set : string)
    (glyphs : list (ndarray byte)) (tile : ndarray byte) (th tw : nat) :
  char_set <> EmptyString ->
  length glyphs = String.length char_set ->
  (forall g, In g glyphs -> shape g = [th; tw] /\ length (strides g) = 2%nat) ->
  shape tile = [th; tw] -> length (strides tile) = 2%nat ->
  255 * Z.of_nat (th * tw) < 2 ^ 63 ->
  Forall (fun x => x = 0) (samples tile) ->
  exists char_glyphs i c,
    array_int16 glyphs = Ok char_glyphs /\
    closest_char char_set char_glyphs tile = Ok c /\
    String.get i char_set = Some c /\
    first_minimum (map ink glyphs) i.
Proof.
  intros Hcs Hlen Hg Hs Hst Hb Hblack.
  assert (Hne : glyphs <> []).
  { destruct glyphs; [|discriminate]. destruct char_set; [congruence|discriminate]. }
  assert (Hink : map (fun g => glyph_sum (samples g) (samples tile)) glyphs
                 = map ink glyphs).
  { rewrite (glyph_sums_l1 glyphs tile th tw) by assumption.
    apply map_ext_in. intros g Hin. destruct (Hg g Hin). unfold ink.
    apply l1_distance_to_black; [|
      eapply Forall_impl; [|apply samples_range]; cbn; intros; lia | assumption].
    rewrite (samples_length g th tw), (samples_length tile th tw); auto. }
  assert (Hmin : first_minimum (map ink glyphs) (first_argmin (map ink glyphs))).
  { apply first_argmin_first_minimum. destruct glyphs; [congruence|discriminate]. }
  destruct (string_get_in_range char_set (first_argmin (map ink glyphs))) as (c & Hc).
  { destruct Hmin as (Hi & _). rewrite length_map in Hi. lia. }
  exists (contiguous [length glyphs; th; tw] (flat_map samples glyphs)),
         (first_argmin (map ink glyphs)), c.
  split; [apply array_int16_stack; [assumption|intros g Hin; apply Hg, Hin]|].
  split.
  { rewrite (closest_char_first_argmin char_set glyphs tile th tw) by assumption.
    rewrite Hink. now rewrite Hc. }
  split; assumption.
Qed.

Lemma black_tile_matches_least_ink_witness :
  exists char_glyphs i c,
    array_int16 [tabulate 2 2 (fun _ _ => xff); diagonal_tile; blank_tile; blank_tile]
      = Ok char_glyphs /\
    closest_char "#+ ." char_glyphs blank_tile = Ok c /\
    String.get i "#+ ." = Some c /\
    first_minimum
      (map ink [tabulate 2 2 (fun _ _ => xff); diagonal_tile; blank_tile; blank_tile]) i.
Proof.
  apply (black_tile_matches_least_ink "#+ ."
           [tabulate 2 2 (fun _ _ => xff); diagonal_tile; blank_tile; blank_tile]
           blank_tile 2 2).
  - discriminate.
  - reflexivity.
  - intros g [<-|[<-|[<-|[<-|[]]]]]; split; reflexivity.
  - reflexivity.
  - reflexivity.
  - reflexivity.
  - repeat constructor.
Defined.

(** ** Further properties of the whole run *)

Lemma mapM_inv {A B} (f : A -> result B) (l : list A) (ys : list B) :
  mapM f l = Ok ys -> Forall2 (fun x y => f x = Ok y) l ys.
Proof.
  revert ys. induction l as [|x l IH]; intros ys H.
  - inversion H. constructor.
  - cbn in H. destruct (f x) as [y|e] eqn:Ex; [|discriminate]. cbn [bind] in H.
    destruct (mapM f l) as [ys'|e]; [|discriminate]. cbn [bind] in H.
    inversion H; subst. constructor; [assumption|]. now apply IH.
Qed.

Lemma mapM_all_ok {A B} (f : A -> result B) (l : list A) :
  (forall x, In x l -> exists y, f x = Ok y) -> exists ys, mapM f l = Ok ys.
Proof.
  induction l as [|x l IH]; intros H; [now exists []|].
  destruct (H x) as (y & Hy); [now left|].
  destruct IH as (ys & Hys); [intros z Hz; apply H; now right|].
  exists (y :: ys). cbn. now rewrite Hy, Hys.
Qed.

Lemma Forall2_nth_all {A B} (R : A -> B -> Prop) (l : list A) (l' : list B)
    (d : A) (d' : B) :
  Forall2 R l l' ->
  length l = length l' /\
  forall i, (i < length l)%nat -> R (nth i l d) (nth i l' d').
Proof.
  induction 1 as [|x y l l' Hxy _ [IHl IHn]]; [split; [reflexivity|cbn; lia]|].
  split; [cbn; congruence|].
  intros [|i] Hi; cbn in *; [assumption|]. apply IHn. lia.
Qed.

Lemma print_rows_all_ok (char_set : string) (char_glyphs : ndarray Z)
    (rows : list (ndarray byte)) (printed : list string) :
  (forall row, In row rows ->
     exists chars, mapM (closest_char char_set char_glyphs) (subarrays row) = Ok chars) ->
  exists lines,
    print_rows char_set char_glyphs rows printed =
      {| stdout := printed ++ lines; outcome := Ok 0 |} /\
    Forall2 (fun row line =>
               exists chars,
                 mapM (closest_char char_set char_glyphs) (subarrays row) = Ok chars /\
                 line = string_of_list_ascii chars) rows lines.
Proof.
  revert printed. induction rows as [|row rows IH]; intros printed H.
  - exists []. cbn. rewrite app_nil_r. split; [reflexivity|constructor].
  - destruct (H row) as (chars & Hc); [now left|].
    destruct (IH (printed ++ [string_of_list_ascii chars])) as (lines & Hp & Hf);
      [intros r Hr; apply H; now right|].
    exists (string_of_list_ascii chars :: lines).
    cbn [print_rows]. rewrite Hc, Hp, <- app_assoc.
    split; [reflexivity|]. constructor; [|assumption]. now exists chars.
Qed.

Lemma mapM_length_and_members {A B} (f : A -> result B) (l : list A) (ys : list B) :
  mapM f l = Ok ys ->
  length ys = length l /\ forall y, In y ys -> exists x, In x l /\ f x = Ok y.
Proof.
  intros H. apply mapM_inv in H.
  induction H as [|x y l ys Hxy _ [IHl IHm]]; [split; [reflexivity|intros ? []]|].
  split; [cbn; congruence|].
  intros y' [<-|Hy'].
  - exists x. split; [now left|assumption].
  - destruct (IHm y' Hy') as (x' & Hx' & Hf). exists x'. split; [now right|assumption].
Qed.

(** A run that gets as far as the printing loop with a non-empty
    character set, glyphs of the tile's size and a [V x N] grid of tiles
    prints every row. *)
Lemma print_rows_grid (char_set : string) (glyphs : list (ndarray byte))
    (V N th tw s0 s1 s2 s3 off : nat) (data : list byte) :
  glyphs <> [] ->
  length glyphs = String.length char_set ->
  (forall g, In g glyphs -> shape g = [th; tw] /\ length (strides g) = 2%nat) ->
  exists lines,
    print_rows char_set
      (contiguous [length glyphs; th; tw] (flat_map samples glyphs))
      (subarrays (NdArray [V; N; th; tw] [s0; s1; s2; s3] off data)) [] =
      {| stdout := lines; outcome := Ok 0 |} /\
    length lines = V /\
    forall i, (i < V)%nat ->
      exists chars,
        nth i lines EmptyString = string_of_list_ascii chars /\
        length chars = N /\
        forall j, (j < N)%nat ->
          closest_char char_set
            (contiguous [length glyphs; th; tw] (flat_map samples glyphs))
            (tile_at (NdArray [V; N; th; tw] [s0; s1; s2; s3] off data) i j)
            = Ok (nth j chars " "%char) /\
          In (nth j chars " "%char) (list_ascii_of_string char_set).
Proof.
  intros Hne Hlen Hg.
  set (CG := contiguous [length glyphs; th; tw] (flat_map samples glyphs)).
  set (tiles := NdArray [V; N; th; tw] [s0; s1; s2; s3] off data).
  assert (Htile : forall i j, (i < V)%nat -> (j < N)%nat ->
            exists c, closest_char char_set CG (tile_at tiles i j) = Ok c /\
                      In c (list_ascii_of_string char_set)).
  { intros i j Hi Hj. unfold tiles. rewrite tile_at_view by assumption.
    apply (closest_char_in_set char_set glyphs _ th tw); try assumption; reflexivity. }
  assert (Hrows : length (subarrays tiles) = V)
    by (unfold tiles, subarrays; cbn; now rewrite length_map, length_seq).
  assert (Hrow : forall i, (i < V)%nat ->
            subarrays (nth i (subarrays tiles) (contiguous [] [])) =
            map (fun j => tile_at tiles i j) (seq 0 N)).
  { intros i Hi. unfold tile_at.
    assert (Hl : length (subarrays (nth i (subarrays tiles) (contiguous [] []))) = N).
    { unfold tiles, subarrays at 2. cbn [shape strides offset buf].
      rewrite nth_map_seq by assumption. unfold subarrays. cbn.
      now rewrite length_map, length_seq. }
    rewrite <- Hl at 1. symmetry. apply map_nth_seq. }
  destruct (print_rows_all_ok char_set CG (subarrays tiles) []) as (lines & Hp & Hf).
  { intros row Hrow'. apply (In_nth _ _ (contiguous [] [])) in Hrow'.
    destruct Hrow' as (i & Hi & <-). rewrite Hrows in Hi.
    apply mapM_all_ok. intros tile Ht. rewrite Hrow in Ht by assumption.
    apply in_map_iff in Ht. destruct Ht as (j & <- & Hj). apply in_seq in Hj.
    destruct (Htile i j) as (c & Hc & _); [assumption|lia|]. now exists c. }
  apply (Forall2_nth_all _ _ _ (contiguous [] []) EmptyString) in Hf.
  destruct Hf as (Hll & Hn).
  exists lines. cbn [app] in Hp. split; [exact Hp|].
  split; [lia|].
  intros i Hi. destruct (Hn i) as (chars & Hm & Hline); [lia|].
  exists chars. split; [exact Hline|].
  rewrite Hrow in Hm by assumption. apply mapM_inv in Hm.
  apply (Forall2_nth_all _ _ _ (contiguous [] []) " "%char) in Hm.
  destruct Hm as (Hcl & Hcn). rewrite length_map, length_seq in Hcl, Hcn.
  split; [lia|].
  intros j Hj. specialize (Hcn j Hj).
  rewrite (nth_indep _ (contiguous [] []) (tile_at tiles i 0))
    in Hcn by (now rewrite length_map, length_seq).
  rewrite (map_nth (fun j => tile_at tiles i j)), seq_nth in Hcn by assumption.
  cbn [Nat.add] in Hcn. split; [exact Hcn|].
  destruct (Htile i j Hi Hj) as (c & Hc & Hin). rewrite Hcn in Hc.
  injection Hc as Hc. now rewrite Hc.
Qed.

Lemma string_of_list_ascii_length (l : list ascii) :
  String.length (string_of_list_ascii l) = length l.
Proof. induction l; cbn; congruence. Qed.

(** In tile-count mode with positive counts, a run whose geometry
    resolves, whose font loads and whose glyphs render reaches the
    printing loop with glyphs and tiles of one size. *)
Lemma run_reaches_grid (P : Pillow) (args : Namespace) (img : image) (n v : Z)
    (g : geometry) (frame : ndarray byte) (f : FreeTypeFont P)
    (glyphs : list (ndarray byte)) :
  use_tile_dimensions args = false ->
  (1 <= width img)%nat -> (1 <= height img)%nat ->
  tile_counts args (Z.of_nat (width img)) (Z.of_nat (height img)) = Ok (n, v) ->
  1 <= n -> 1 <= v ->
  resolved P args img = Ok (g, frame) ->
  truetype P (font args) (font_size g) = Ok f ->
  mapM (to_char_glyph P f (tile_width g) (tile_height g))
       (list_ascii_of_string (char_set args)) = Ok glyphs ->
  char_set args <> EmptyString ->
  exists tw th,
    tile_width g = Z.of_nat tw /\ tile_height g = Z.of_nat th /\
    glyphs <> [] /\
    length glyphs = String.length (char_set args) /\
    (forall g', In g' glyphs -> shape g' = [th; tw] /\ length (strides g') = 2%nat) /\
    array_int16 glyphs =
      Ok (contiguous [length glyphs; th; tw] (flat_map samples glyphs)) /\
    to_tiles frame (tile_width g) (tile_height g) =
      Ok (NdArray [Z.to_nat v; Z.to_nat n; th; tw]
                  [(th * (Z.to_nat n * (tw * 1)))%nat; (tw * 1)%nat;
                   (Z.to_nat n * (tw * 1))%nat; 1%nat]
                  0%nat (elements x00 frame)) /\
    main P args img =
      print_rows (char_set args)
        (contiguous [length glyphs; th; tw] (flat_map samples glyphs))
        (subarrays (NdArray [Z.to_nat v; Z.to_nat n; th; tw]
                            [(th * (Z.to_nat n * (tw * 1)))%nat; (tw * 1)%nat;
                             (Z.to_nat n * (tw * 1))%nat; 1%nat]
                            0%nat (elements x00 frame))) [].
Proof.
  intros Hd Hw Hh Hc Hn Hv Hr Hf Hgl Hcs.
  destruct (resolved_tile_grid P args img n v g frame Hd Hw Hh Hc Hn Hv Hr)
    as (tw & th & Htw & Hth & Etw & Eth & Ht).
  destruct (mapM_length_and_members _ _ _ Hgl) as (Hlen & Hmem).
  rewrite list_ascii_length in Hlen.
  assert (Hne : glyphs <> []).
  { destruct glyphs; [|discriminate]. destruct (char_set args); [congruence|discriminate]. }
  assert (Hg : forall g', In g' glyphs ->
            shape g' = [th; tw] /\ length (strides g') = 2%nat).
  { intros g' Hin. destruct (Hmem g' Hin) as (c & _ & Hc').
    apply to_char_glyph_inv in Hc'. destruct Hc' as (_ & _ & x & y & ->).
    rewrite Etw, Eth, !Nat2Z.id. split; reflexivity. }
  assert (Harr : array_int16 glyphs =
            Ok (contiguous [length glyphs; th; tw] (flat_map samples glyphs))).
  { apply array_int16_stack; [assumption|]. intros g' Hin. apply Hg, Hin. }
  exists tw, th. repeat (split; [assumption|]).
  unfold main, prepare. rewrite Hr. cbn [bind]. rewrite Hf. cbn [bind].
  rewrite Hgl. cbn [bind]. rewrite Harr. cbn [bind]. rewrite Ht. reflexivity.
Qed.

(** X11: the output is the grid.  In tile-count mode, on a non-empty
    image with positive tile counts [n] across and [v] down and a
    non-empty character set, a run whose geometry resolves, whose font
    loads and whose glyphs render ends normally and prints [v] lines of
    [n] characters: line [i], character [j] is the character of the set
    matched to the tile in row [i], column [j], rows top to bottom and
    tiles left to right. *)
Theorem main_prints_the_grid (P : Pillow) (args : Namespace) (img : image)
    (n v : Z) (g : geometry) (frame : ndarray byte) (f : FreeTypeFont P)
    (glyphs : list (ndarray byte)) :
  use_tile_dimensions args = false ->
  (1 <= width img)%nat -> (1 <= height img)%nat ->
  tile_counts args (Z.of_nat (width img)) (Z.of_nat (height img)) = Ok (n, v) ->
  1 <= n -> 1 <= v ->
  resolved P args img = Ok (g, frame) ->
  truetype P (font args) (font_size g) = Ok f ->
  mapM (to_char_glyph P f (tile_width g) (tile_height g))
       (list_ascii_of_string (char_set args)) = Ok glyphs ->
  char_set args <> EmptyString ->
  exists char_glyphs tiles lines,
    array_int16 glyphs = Ok char_glyphs /\
    to_tiles frame (tile_width g) (tile_height g) = Ok tiles /\
    main P args img = {| stdout := lines; outcome := Ok 0 |} /\
    length lines = Z.to_nat v /\
    forall i, (i < Z.to_nat v)%nat ->
      exists chars,
        nth i lines EmptyString = string_of_list_ascii chars /\
        length chars = Z.to_nat n /\
        forall j, (j < Z.to_nat n)%nat ->
          closest_char (char_set args) char_glyphs (tile_at tiles i j)
            = Ok (nth j chars " "%char) /\
          In (nth j chars " "%char) (list_ascii_of_string (char_set args)).
Proof.
  intros Hd Hw Hh Hc Hn Hv Hr Hf Hgl Hcs.
  destruct (run_reaches_grid P args img n v g frame f glyphs
              Hd Hw Hh Hc Hn Hv Hr Hf Hgl Hcs)
    as (tw & th & _ & _ & Hne & Hlen & Hg & Harr & Ht & Hm).
  destruct (print_rows_grid (char_set args) glyphs (Z.to_nat v) (Z.to_nat n) th tw
              (th * (Z.to_nat n * (tw * 1))) (tw * 1) (Z.to_nat n * (tw * 1)) 1 0
              (elements x00 frame) Hne Hlen Hg)
    as (lines & Hp & Hl & Hrows).
  do 3 eexists. split; [exact Harr|]. split; [exact Ht|].
  split; [rewrite Hm; exact Hp|]. split; [exact Hl|exact Hrows].
Qed.

Lemma main_prints_the_grid_witness :
  exists char_glyphs tiles lines,
    array_int16 [blank_tile; tabulate 2 2 (fun _ _ => xff);
                 tabulate 2 2 (fun r k => if Nat.eqb r k then xff else x00)]
      = Ok char_glyphs /\
    to_tiles (tabulate 4 6 (fun _ _ => x00))
             (tile_width (Build_geometry 2 2 16 0 0))
             (tile_height (Build_geometry 2 2 16 0 0)) = Ok tiles /\
    main block_font (tile_count_args 3 (Some 2) (Some 16) " #+") (flat_image 6 4 x00)
      = {| stdout := lines; outcome := Ok 0 |} /\
    length lines = Z.to_nat 2 /\
    forall i, (i < Z.to_nat 2)%nat ->
      exists chars,
        nth i lines EmptyString = string_of_list_ascii chars /\
        length chars = Z.to_nat 3 /\
        forall j, (j < Z.to_nat 3)%nat ->
          closest_char (char_set (tile_count_args 3 (Some 2) (Some 16) " #+"))
                       char_glyphs (tile_at tiles i j)
            = Ok (nth j chars " "%char) /\
          In (nth j chars " "%char)
             (list_ascii_of_string
                (char_set (tile_count_args 3 (Some 2) (Some 16) " #+"))).
Proof.
  apply (main_prints_the_grid block_font
           (tile_count_args 3 (Some 2) (Some 16) " #+") (flat_image 6 4 x00) 3 2
           (Build_geometry 2 2 16 0 0) (tabulate 4 6 (fun _ _ => x00)) 16
           [blank_tile; tabulate 2 2 (fun _ _ => xff);
            tabulate 2 2 (fun r k => if Nat.eqb r k then xff else x00)]);
    try reflexivity; try (cbn; lia); discriminate.
Defined.

Lemma pad_with_ok_shape (a a' : ndarray byte) (h w : nat) (hp vp : Z) :
  shape a = [h; w] -> (1 <= h)%nat -> (1 <= w)%nat ->
  pad_with a hp vp = Ok a' ->
  0 <= hp /\ 0 <= vp /\
  shape a' = [Z.to_nat (Z.of_nat h + vp); Z.to_nat (Z.of_nat w + hp)].
Proof.
  intros Hs Hh Hw Hp.
  assert (Hnn : 0 <= hp /\ 0 <= vp).
  { destruct (Z_lt_le_dec hp 0) as [Hneg|]; [|destruct (Z_lt_le_dec vp 0) as [Hneg|]].
    - rewrite pad_with_negative in Hp by (now left). discriminate.
    - rewrite pad_with_negative in Hp by (now right). discriminate.
    - now split. }
  destruct Hnn as [Hhp Hvp]. split; [assumption|]. split; [assumption|].
  destruct (pad_with_shape a h w hp vp Hs Hh Hw Hhp Hvp) as (b & Hb & Hsh & _).
  rewrite Hp in Hb. inversion Hb. now subst.
Qed.

Lemma tile_dimensions_inv (w h n v tw th hp vp : Z) :
  tile_dimensions w h n v = Ok (tw, th, hp, vp) ->
  n <> 0 /\ v <> 0 /\
  tw = - (- w / n) /\ hp = (- w) mod n /\
  th = - (- h / v) /\ vp = (- h) mod v.
Proof.
  unfold tile_dimensions, divmod. intros H.
  destruct (Z.eqb_spec n 0); [discriminate|]. cbn [bind] in H.
  destruct (Z.eqb_spec v 0); [discriminate|]. cbn [bind] in H.
  inversion H. repeat split; assumption.
Qed.

(** A negative divisor leaves a negative tile size once the padding has
    gone through. *)
Lemma negative_count_negative_size (a n : Z) :
  1 <= a -> n < 0 -> 0 <= (- a) mod n ->
  (- a) mod n = 0 /\ - (- a / n) <= -1.
Proof.
  intros Ha Hn Hm.
  pose proof (Z.mod_neg_bound (- a) n Hn) as Hb.
  pose proof (Z.div_mod (- a) n ltac:(lia)) as Hd.
  split; [lia|]. nia.
Qed.

Lemma floordiv_by_negative (a b : Z) :
  1 <= a -> b <= -1 -> exists q, floordiv a b = Ok q /\ q < 0.
Proof.
  intros Ha Hb. unfold floordiv. destruct (Z.eqb_spec b 0); [lia|].
  eexists. split; [reflexivity|].
  pose proof (Z.mod_neg_bound a b ltac:(lia)).
  pose proof (Z.div_mod a b ltac:(lia)). nia.
Qed.

Lemma reshape_two_negatives {A} (d : A) (a : ndarray A) (d0 d1 d2 d3 : Z) :
  (d0 < 0 /\ d1 < 0) \/ (d2 < 0 /\ d3 < 0) ->
  reshape d a [d0; d1; d2; d3] = Raise ValueError.
Proof.
  intros H. unfold reshape, resolve_shape. cbn [filter].
  destruct H as [[H0 H1]|[H2 H3]].
  - replace (d0 <? 0) with true by (symmetry; apply Z.ltb_lt; lia).
    replace (d1 <? 0) with true by (symmetry; apply Z.ltb_lt; lia).
    destruct (d2 <? 0), (d3 <? 0); reflexivity.
  - replace (d2 <? 0) with true by (symmetry; apply Z.ltb_lt; lia).
    replace (d3 <? 0) with true by (symmetry; apply Z.ltb_lt; lia).
    destruct (d0 <? 0), (d1 <? 0); reflexivity.
Qed.

(** With a negative tile count the padded frame, if resolution gets that
    far, cannot be tiled. *)
Lemma negative_count_no_tiles (P : Pillow) (args : Namespace) (img : image)
    (n v : Z) (g : geometry) (frame : ndarray byte) :
  use_tile_dimensions args = false ->
  (1 <= width img)%nat -> (1 <= height img)%nat ->
  tile_counts args (Z.of_nat (width img)) (Z.of_nat (height img)) = Ok (n, v) ->
  n < 0 \/ v < 0 ->
  resolved P args img = Ok (g, frame) ->
  exists e, to_tiles frame (tile_width g) (tile_height g) = Raise e.
Proof.
  intros Hd Hw Hh Hc Hneg Hr. unfold resolved, resolve in Hr. rewrite Hd in Hr.
  apply resolve_tile_counts_inv in Hr.
  destruct Hr as (n' & v' & Hc' & Hdim & _ & Hpad).
  rewrite Hc in Hc'. inversion Hc'; subst n' v'. clear Hc'.
  apply tile_dimensions_inv in Hdim.
  destruct Hdim as (Hn0 & Hv0 & Etw & Ehp & Eth & Evp).
  destruct (pad_with_ok_shape _ _ (height img) (width img) _ _
              (frame_of_shape P args img) Hh Hw Hpad) as (Hhp & Hvp & Hsh).
  set (w := Z.of_nat (width img)) in *. set (h := Z.of_nat (height img)) in *.
  unfold to_tiles, frame_tile_counts. rewrite Hsh.
  rewrite !Z2Nat.id by lia.
  destruct Hneg as [Hn|Hv].
  - destruct (negative_count_negative_size w n ltac:(lia) Hn ltac:(lia)) as [Z0 Zt].
    rewrite <- Ehp in Z0. rewrite <- Etw in Zt. rewrite Z0, Z.add_0_r.
    destruct (floordiv (h + v_padding g) (tile_height g)) as [q|e];
      [cbn [bind]|now exists e].
    destruct (floordiv_by_negative w (tile_width g) ltac:(lia) Zt) as (hc & Hhc & Hlt).
    rewrite Hhc. cbn [bind].
    rewrite reshape_two_negatives by (right; lia). now exists ValueError.
  - destruct (negative_count_negative_size h v ltac:(lia) Hv ltac:(lia)) as [Z0 Zt].
    rewrite <- Evp in Z0. rewrite <- Eth in Zt. rewrite Z0, Z.add_0_r.
    destruct (floordiv_by_negative h (tile_height g) ltac:(lia) Zt) as (q & Hq & Hlt).
    rewrite Hq. cbn [bind].
    destruct (floordiv (w + h_padding g) (tile_width g)) as [hc|e];
      [cbn [bind]|now exists e].
    rewrite reshape_two_negatives by (left; lia). now exists ValueError.
Qed.

Lemma main_raises_with_prepare (P : Pillow) (args : Namespace) (img : image) (e : exn) :
  prepare P args img = Raise e ->
  main P args img = {| stdout := []; outcome := Raise e |}.
Proof. intros H. unfold main. now rewrite H. Qed.

(** A run with a negative tile count ends with an exception before the
    printing loop. *)
Lemma negative_count_run_raises (P : Pillow) (args : Namespace) (img : image)
    (n v : Z) :
  use_tile_dimensions args = false ->
  (1 <= width img)%nat -> (1 <= height img)%nat ->
  tile_counts args (Z.of_nat (width img)) (Z.of_nat (height img)) = Ok (n, v) ->
  n < 0 \/ v < 0 ->
  exists e, main P args img = {| stdout := []; outcome := Raise e |}.
Proof.
  intros Hd Hw Hh Hc Hneg.
  assert (He : exists e, prepare P args img = Raise e).
  { unfold prepare.
    destruct (resolved P args img) as [[g frame]|e] eqn:Hr; [|now exists e].
    cbn [bind].
    destruct (truetype P (font args) (font_size g)) as [f|e]; [|now exists e].
    cbn [bind].
    destruct (mapM _ _) as [glyphs|e]; [|now exists e]. cbn [bind].
    destruct (array_int16 glyphs) as [cg|e]; [|now exists e]. cbn [bind].
    destruct (negative_count_no_tiles P args img n v g frame Hd Hw Hh Hc Hneg Hr)
      as (e & He).
    rewrite He. now exists e. }
  destruct He as (e & He). exists e. now apply main_raises_with_prepare.
Qed.

Lemma tile_counts_across (args : Namespace) (w h n v : Z) :
  tile_counts args w h = Ok (n, v) ->
  n = h_tile_count args /\
  forall y, v_tile_count args = Some y -> v = y.
Proof.
  unfold tile_counts. intros H.
  destruct (v_tile_count args) as [y|].
  - cbn in H. inversion H. split; [reflexivity|]. intros y' Hy. now inversion Hy.
  - split.
    + destruct (int_truediv _ _); [|discriminate]. cbn [bind] in H.
      destruct (float_truediv _ _); [|discriminate]. cbn [bind] in H.
      destruct (round _); [|discriminate]. cbn [bind] in H. now inversion H.
    + intros y Hy. discriminate.
Qed.

(** X12: a negative tile count never yields output.  In tile-count mode,
    on a non-empty image, a run given a negative [-x], or a negative
    [-y], ends with an exception and prints nothing, whatever the font
    and the character set. *)
Theorem negative_tile_count_prints_nothing (P : Pillow) (args : Namespace)
    (img : image) :
  use_tile_dimensions args = false ->
  (1 <= width img)%nat -> (1 <= height img)%nat ->
  h_tile_count args < 0 \/ (exists y, v_tile_count args = Some y /\ y < 0) ->
  exists e, main P args img = {| stdout := []; outcome := Raise e |}.
Proof.
  intros Hd Hw Hh Hneg.
  destruct (tile_counts args (Z.of_nat (width img)) (Z.of_nat (height img)))
    as [[n v]|e] eqn:Hc.
  - apply (negative_count_run_raises P args img n v); try assumption.
    destruct (tile_counts_across _ _ _ _ _ Hc) as (Hn & Hy).
    destruct Hneg as [Hx|(y & Hv & Hlt)]; [left; lia|right].
    rewrite (Hy y Hv). exact Hlt.
  - exists e. apply main_raises_with_prepare.
    unfold prepare, resolved, resolve, resolve_tile_counts.
    rewrite Hd, Hc. reflexivity.
Qed.

Lemma negative_tile_count_prints_nothing_witness :
  exists e,
    main block_font (tile_count_args (-3) (Some 3) (Some 16) "#") (flat_image 9 9 x00)
    = {| stdout := []; outcome := Raise e |}.
Proof.
  apply (negative_tile_count_prints_nothing block_font
           (tile_count_args (-3) (Some 3) (Some 16) "#") (flat_image 9 9 x00));
    try reflexivity; cbn; lia.
Defined.

Lemma print_rows_no_glyphs (char_set : string)
    (V N th tw s0 s1 s2 s3 off : nat) (data : list byte) :
  (1 <= V)%nat -> (1 <= N)%nat -> (1 <= tw)%nat ->
  print_rows char_set (contiguous [0%nat] [])
    (subarrays (NdArray [V; N; th; tw] [s0; s1; s2; s3] off data)) [] =
  {| stdout := [];
     outcome := Raise (if (tw =? 1)%nat then AxisError else ValueError) |}.
Proof.
  intros HV HN Htw.
  unfold subarrays at 1. cbn [shape strides offset buf].
  rewrite (seq_positive V) by assumption. cbn [map print_rows].
  unfold subarrays at 1. cbn [shape strides offset buf].
  rewrite (seq_positive N) by assumption. cbn [map].
  rewrite (mapM_raises_at_head _ _ _
             (if (tw =? 1)%nat then AxisError else ValueError))
    by (apply (closest_char_no_glyphs _ _ th tw); [reflexivity|assumption]).
  reflexivity.
Qed.

(** X13: a run prints all of the grid or nothing.  On a non-empty image,
    whatever the arguments, the font and the rasterizer, [main] either
    ends with an exception having printed nothing, or returns 0 having
    printed one line per vertical tile, each as long as the horizontal
    tile count; the latter only in tile-count mode, with positive tile
    counts and a non-empty character set. *)
Theorem run_prints_all_or_nothing (P : Pillow) (args : Namespace) (img : image) :
  (1 <= width img)%nat -> (1 <= height img)%nat ->
  (exists e, main P args img = {| stdout := []; outcome := Raise e |}) \/
  (exists n v lines,
     use_tile_dimensions args = false /\
     char_set args <> EmptyString /\
     tile_counts args (Z.of_nat (width img)) (Z.of_nat (height img)) = Ok (n, v) /\
     1 <= n /\ 1 <= v /\
     main P args img = {| stdout := lines; outcome := Ok 0 |} /\
     length lines = Z.to_nat v /\
     forall i, (i < Z.to_nat v)%nat ->
       String.length (nth i lines EmptyString) = Z.to_nat n).
Proof.
  intros Hw Hh.
  destruct (use_tile_dimensions args) eqn:Hd.
  { left. exists AttributeError. apply main_raises_with_prepare.
    unfold prepare, resolved, resolve. rewrite Hd.
    now rewrite resolve_tile_dimensions_raises. }
  destruct (resolved P args img) as [[g frame]|e] eqn:Hr;
    [|left; exists e; apply main_raises_with_prepare; unfold prepare; now rewrite Hr].
  assert (Hinv := Hr). unfold resolved, resolve in Hinv. rewrite Hd in Hinv.
  apply resolve_tile_counts_inv in Hinv.
  destruct Hinv as (n & v & Hc & Hdim & _ & _).
  apply tile_dimensions_inv in Hdim. destruct Hdim as (Hn0 & Hv0 & _).
  destruct (Z_lt_le_dec n 0) as [Hn|Hn];
    [left; apply (negative_count_run_raises P args img n v); auto|].
  destruct (Z_lt_le_dec v 0) as [Hv|Hv];
    [left; apply (negative_count_run_raises P args img n v); auto|].
  assert (Hn1 : 1 <= n) by lia. assert (Hv1 : 1 <= v) by lia.
  destruct (truetype P (font args) (font_size g)) as [f|e] eqn:Hf;
    [|left; exists e; apply main_raises_with_prepare; unfold prepare;
      rewrite Hr; cbn [bind]; now rewrite Hf].
  destruct (mapM (to_char_glyph P f (tile_width g) (tile_height g))
                 (list_ascii_of_string (char_set args))) as [glyphs|e] eqn:Hgl;
    [|left; exists e; apply main_raises_with_prepare; unfold prepare;
      rewrite Hr; cbn [bind]; rewrite Hf; cbn [bind]; now rewrite Hgl].
  destruct (string_dec (char_set args) EmptyString) as [Hcs|Hcs].
  - left.
    destruct (resolved_tile_grid P args img n v g frame Hd Hw Hh Hc Hn1 Hv1 Hr)
      as (tw & th & Htw & Hth & Etw & Eth & Ht).
    eexists. unfold main, prepare. rewrite Hr. cbn [bind]. rewrite Hf. cbn [bind].
    rewrite Hcs. cbn [list_ascii_of_string mapM bind array_int16].
    rewrite Ht. cbn [bind].
    apply print_rows_no_glyphs; lia.
  - right.
    destruct (run_reaches_grid P args img n v g frame f glyphs
                Hd Hw Hh Hc Hn1 Hv1 Hr Hf Hgl Hcs)
      as (tw & th & _ & _ & Hne & Hlen & Hg & _ & _ & Hm).
    destruct (print_rows_grid (char_set args) glyphs (Z.to_nat v) (Z.to_nat n) th tw
                (th * (Z.to_nat n * (tw * 1))) (tw * 1) (Z.to_nat n * (tw * 1)) 1 0
                (elements x00 frame) Hne Hlen Hg)
      as (lines & Hp & Hl & Hrows).
    exists n, v, lines. split; [reflexivity|]. split; [exact Hcs|].
    split; [exact Hc|]. split; [exact Hn1|]. split; [exact Hv1|].
    split; [rewrite Hm; exact Hp|]. split; [exact Hl|].
    intros i Hi. destruct (Hrows i Hi) as (chars & -> & Hcl & _).
    now rewrite string_of_list_ascii_length.
Qed.

Lemma run_prints_all_or_nothing_witness :
  (exists e,
     main block_font (tile_count_args 3 None None " #+") (flat_image 6 4 xff)
     = {| stdout := []; outcome := Raise e |}) \/
  (exists n v lines,
     use_tile_dimensions (tile_count_args 3 None None " #+") = false /\
     char_set (tile_count_args 3 None None " #+") <> EmptyString /\
     tile_counts (tile_count_args 3 None None " #+")
                 (Z.of_nat (width (flat_image 6 4 xff)))
                 (Z.of_nat (height (flat_image 6 4 xff))) = Ok (n, v) /\
     1 <= n /\ 1 <= v /\
     main block_font (tile_count_args 3 None None " #+") (flat_image 6 4 xff)
     = {| stdout := lines; outcome := Ok 0 |} /\
     length lines = Z.to_nat v /\
     forall i, (i < Z.to_nat v)%nat ->
       String.length (nth i lines EmptyString) = Z.to_nat n).
Proof.
  apply (run_prints_all_or_nothing block_font
           (tile_count_args 3 None None " #+") (flat_image 6 4 xff)); cbn; lia.
Defined.

(** X14: the int16 glyph array does what its comment says: on uint8
    glyphs and a uint8 tile of one shape, no difference and no absolute
    value wraps around, and with 255 times the tile area below 2^63 no
    sum does either, so the array [closest_char] takes the [argmin] of
    holds exactly the L1 distance of each glyph to the tile, in
    character-set order. *)
Theorem matcher_sums_are_l1_distances (glyphs : list (ndarray byte))
    (tile : ndarray byte) (th tw : nat) :
  glyphs <> [] ->
  (forall g, In g glyphs -> shape g = [th; tw] /\ length (strides g) = 2%nat) ->
  shape tile = [th; tw] -> length (strides tile) = 2%nat ->
  255 * Z.of_nat (th * tw) < 2 ^ 63 ->
  exists char_glyphs diff sums,
    array_int16 glyphs = Ok char_glyphs /\
    subtract_int16 char_glyphs (map_array int16_of_uint8 tile) = Ok diff /\
    sum_axes_1_2 (abs_int16 diff) = Ok sums /\
    shape sums = [length glyphs] /\
    elements 0 sums =
      map (fun g => l1_distance (samples g) (samples tile)) glyphs.
Proof.
  intros Hne Hg Hs Hst Hb.
  destruct (glyph_sums glyphs tile th tw Hne Hg Hs Hst) as (diff & Hd & Hsum).
  do 3 eexists.
  split; [apply array_int16_stack; [assumption|intros g Hin; apply Hg, Hin]|].
  split; [exact Hd|]. split; [exact Hsum|]. split; [reflexivity|].
  rewrite elements_contiguous by (cbn; rewrite length_map; lia).
  now apply (glyph_sums_l1 glyphs tile th tw).
Qed.

Lemma matcher_sums_are_l1_distances_witness :
  exists char_glyphs diff sums,
    array_int16 [blank_tile; tabulate 2 2 (fun _ _ => xff)] = Ok char_glyphs /\
    subtract_int16 char_glyphs (map_array int16_of_uint8 diagonal_tile) = Ok diff /\
    sum_axes_1_2 (abs_int16 diff) = Ok sums /\
    shape sums = [length [blank_tile; tabulate 2 2 (fun _ _ => xff)]] /\
    elements 0 sums =
      map (fun g => l1_distance (samples g) (samples diagonal_tile))
          [blank_tile; tabulate 2 2 (fun _ _ => xff)].
Proof.
  apply (matcher_sums_are_l1_distances
           [blank_tile; tabulate 2 2 (fun _ _ => xff)] diagonal_tile 2 2).
  - discriminate.
  - intros g [<-|[<-|[]]]; split; reflexivity.
  - reflexivity.
  - reflexivity.
  - reflexivity.
Defined.

(** ** What geometry resolution fails with *)

Lemma int_truediv_raises (a b : Z) (e : exn) :
  int_truediv a b = Raise e -> e = ZeroDivisionError \/ e = OverflowError.
Proof.
  unfold int_truediv. intros H.
  destruct (b =? 0); [inversion H; now left|].
  destruct (a =? 0); [discriminate|]. cbv zeta in H.
  destruct (binary_normalize _ _ _ _ _); inversion H. now right.
Qed.

Lemma float_of_int_raises (n : Z) (e : exn) :
  float_of_int n = Raise e -> e = OverflowError.
Proof.
  unfold float_of_int. intros H.
  destruct (binary_normalize _ _ _ _ _); now inversion H.
Qed.

Lemma float_truediv_raises (x y : float) (e : exn) :
  float_truediv x y = Raise e -> e = ZeroDivisionError.
Proof.
  unfold float_truediv. intros H. destruct (PrimFloat.eqb y 0); now inversion H.
Qed.

Lemma floor_raises (x : float) (e : exn) :
  floor x = Raise e -> e = ValueError \/ e = OverflowError.
Proof.
  unfold floor. destruct (Prim2SF x); intros H; inversion H; auto.
Qed.

Lemma int_div_float_raises (n : Z) (x : float) (e : exn) :
  int_div_float n x = Raise e -> e = ZeroDivisionError \/ e = OverflowError.
Proof.
  unfold int_div_float. intros H.
  destruct (float_of_int n) as [y|e'] eqn:E; cbn [bind] in H.
  - left. eapply float_truediv_raises, H.
  - inversion H; subst. right. eapply float_of_int_raises, E.
Qed.

Lemma tile_counts_raises (args : Namespace) (w h : Z) (e : exn) :
  tile_counts args w h = Raise e -> resolver_error e.
Proof.
  unfold tile_counts, resolver_error. intros H.
  destruct (v_tile_count args); [discriminate|].
  destruct (int_truediv _ _) as [a|e1] eqn:E1; cbn [bind] in H.
  - destruct (float_truediv _ _) as [b|e2] eqn:E2; cbn [bind] in H.
    + destruct (round b) as [v|e3] eqn:E3; cbn [bind] in H; [discriminate|].
      inversion H; subst. destruct (round_raises _ _ E3); auto.
    + inversion H; subst. left. eapply float_truediv_raises, E2.
  - inversion H; subst. destruct (int_truediv_raises _ _ _ E1); auto.
Qed.

Lemma tile_dimensions_raises (w h n v : Z) (e : exn) :
  tile_dimensions w h n v = Raise e -> e = ZeroDivisionError.
Proof.
  unfold tile_dimensions, divmod. intros H.
  destruct (n =? 0); [now inversion H|]. cbn [bind] in H.
  destruct (v =? 0); [now inversion H|]. discriminate.
Qed.

Lemma fitting_font_size_raises (args : Namespace) (tw th : Z) (e : exn) :
  fitting_font_size args tw th = Raise e -> resolver_error e.
Proof.
  unfold fitting_font_size, resolver_error. intros H.
  destruct (Args.font_size args); [discriminate|].
  destruct (int_div_float tw _) as [a|e1] eqn:E1; cbn [bind] in H.
  - destruct (int_div_float th _) as [b|e2] eqn:E2; cbn [bind] in H.
    + destruct (floor_raises _ _ H); auto.
    + inversion H; subst. destruct (int_div_float_raises _ _ _ E2); auto.
  - inversion H; subst. destruct (int_div_float_raises _ _ _ E1); auto.
Qed.

Lemma pad_with_raises (a : ndarray byte) (hp vp : Z) (e : exn) :
  pad_with a hp vp = Raise e -> e = ValueError.
Proof.
  unfold pad_with, pad_edge. intros H.
  destruct (shape a) as [|h [|w [|? ?]]]; try (now inversion H).
  destruct (_ || _ || _ || _); [now inversion H|].
  destruct (_ || _); [now inversion H|discriminate].
Qed.

(** Every failure of the resolver is one of four exceptions. *)
Lemma resolve_raises (args : Namespace) (w h : Z) (frame : ndarray byte) (e : exn) :
  resolve args w h frame = Raise e -> resolver_error e.
Proof.
  unfold resolve. destruct (use_tile_dimensions args).
  - rewrite resolve_tile_dimensions_raises. intros H. inversion H.
    unfold resolver_error. auto.
  - unfold resolve_tile_counts. intros H.
    destruct (tile_counts args w h) as [[n v]|e1] eqn:E1; cbn [bind] in H;
      [|inversion H; subst; eapply tile_counts_raises, E1].
    destruct (tile_dimensions w h n v) as [[[[tw th] hp] vp]|e2] eqn:E2;
      cbn [bind] in H;
      [|inversion H; subst; left; eapply tile_dimensions_raises, E2].
    destruct (fitting_font_size args tw th) as [fs|e3] eqn:E3; cbn [bind] in H;
      [|inversion H; subst; eapply fitting_font_size_raises, E3].
    destruct (pad_with frame hp vp) as [fr|e4] eqn:E4; cbn [bind] in H;
      [discriminate|].
    inversion H; subst. right. left. eapply pad_with_raises, E4.
Qed.

(** A negative tile count that resolves leaves a negative tile size. *)
Lemma negative_count_resolves_negative (args : Namespace) (w h n v : Z)
    (frame frame' : ndarray byte) (g : geometry) :
  use_tile_dimensions args = false ->
  tile_counts args w h = Ok (n, v) ->
  resolve args w h frame = Ok (g, frame') ->
  (1 <= w -> n < 0 -> tile_width g <= -1 /\ h_padding g = 0) /\
  (1 <= h -> v < 0 -> tile_height g <= -1 /\ v_padding g = 0).
Proof.
  intros Hd Hc Hr. unfold resolve in Hr. rewrite Hd in Hr.
  apply resolve_tile_counts_inv in Hr.
  destruct Hr as (n' & v' & Hc' & Hdim & _ & Hpad).
  rewrite Hc in Hc'. inversion Hc'; subst n' v'. clear Hc'.
  apply tile_dimensions_inv in Hdim.
  destruct Hdim as (_ & _ & Etw & Ehp & Eth & Evp).
  assert (Hnn : 0 <= h_padding g /\ 0 <= v_padding g).
  { destruct (Z_lt_le_dec (h_padding g) 0) as [Hneg|];
      [|destruct (Z_lt_le_dec (v_padding g) 0) as [Hneg|]].
    - rewrite pad_with_negative in Hpad by (now left). discriminate.
    - rewrite pad_with_negative in Hpad by (now right). discriminate.
    - now split. }
  destruct Hnn as [Hhp Hvp]. split.
  - intros Hw Hn.
    destruct (negative_count_negative_size w n Hw Hn ltac:(lia)) as [Z0 Zt].
    rewrite Etw, Ehp. now split.
  - intros Hh Hv.
    destruct (negative_count_negative_size h v Hh Hv ltac:(lia)) as [Z0 Zt].
    rewrite Eth, Evp. now split.
Qed.

(** C6, amended: geometry resolution validates nothing and never raises
    an InvalidGeometry error: whenever it fails, the exception is
    ZeroDivisionError, ValueError, OverflowError or, with [-d],
    AttributeError.  In tile-count mode with [h_tile_count = 0] it always
    fails, by attempting the division: with ZeroDivisionError whenever
    the vertical tile count is supplied, and otherwise with
    ZeroDivisionError or the ValueError or OverflowError of [round] on a
    non-finite ratio.  With a negative resolved tile count on an image
    of positive size it clamps nothing: it either fails or returns the
    negative tile dimension (at most -1, with padding 0) as computed. *)
Theorem resolver_validates_nothing (args : Namespace) (w h : Z)
    (frame : ndarray byte) :
  (forall e, resolve args w h frame = Raise e ->
     resolver_error e /\ e <> InvalidGeometry) /\
  (use_tile_dimensions args = false -> h_tile_count args = 0 ->
   exists e,
     resolve args w h frame = Raise e /\
     (e = ZeroDivisionError \/
      (v_tile_count args = None /\ (e = ValueError \/ e = OverflowError)))) /\
  (use_tile_dimensions args = false ->
   forall n v g frame',
     tile_counts args w h = Ok (n, v) ->
     resolve args w h frame = Ok (g, frame') ->
     (1 <= w -> n < 0 -> tile_width g <= -1 /\ h_padding g = 0) /\
     (1 <= h -> v < 0 -> tile_height g <= -1 /\ v_padding g = 0)).
Proof.
  split; [|split].
  - intros e He. pose proof (resolve_raises args w h frame e He) as Hk.
    split; [exact Hk|].
    destruct Hk as [-> | [-> | [-> | ->]]]; discriminate.
  - intros Hd Hx.
    destruct (zero_tile_count_divides_by_zero args w h frame Hd Hx)
      as (e & He & _ & Hcase).
    exists e. now split.
  - intros Hd n v g frame' Hc Hr.
    exact (negative_count_resolves_negative args w h n v frame frame' g Hd Hc Hr).
Qed.

Lemma resolver_validates_nothing_witness :
  (exists e,
     resolve (tile_count_args 0 None None "#") 10 10
             (frame_of block_font (tile_count_args 0 None None "#")
                       (flat_image 10 10 x00)) = Raise e /\
     resolver_error e /\ e <> InvalidGeometry /\
     (e = ZeroDivisionError \/
      (v_tile_count (tile_count_args 0 None None "#") = None /\
       (e = ValueError \/ e = OverflowError)))) /\
  (tile_width (Build_geometry (-3) 3 16 0 0) <= -1 /\
   h_padding (Build_geometry (-3) 3 16 0 0) = 0).
Proof.
  split.
  - destruct (resolver_validates_nothing (tile_count_args 0 None None "#") 10 10
                (frame_of block_font (tile_count_args 0 None None "#")
                          (flat_image 10 10 x00))) as (Hfail & Hzero & _).
    destruct (Hzero eq_refl eq_refl) as (e & He & Hcase).
    exists e. destruct (Hfail e He) as [Hk Hne]. repeat split; assumption.
  - destruct (resolver_validates_nothing (tile_count_args (-3) (Some 3) (Some 16) "#")
                9 9
                (frame_of block_font (tile_count_args (-3) (Some 3) (Some 16) "#")
                          (flat_image 9 9 x00))) as (_ & _ & Hneg).
    apply (Hneg eq_refl (-3) 3 (Build_geometry (-3) 3 16 0 0)
                (tabulate 9 9 (fun _ _ => x00))); try reflexivity; lia.
Defined.
